(** * Macro playback engine of ActionRecorder (actrec/functions/shared.py)

    A shallow embedding of [play], [execute_individually] and
    [execute_render_complete].  Python exceptions are values of [PyExc];
    the Blender state the interpreter reads and writes is the record
    [World]; the interpreter's own effects (alert flags, the render
    complete queue, registered timers) live in [St], together with a
    trace of every [exec] call, which is what "invoking a macro" means. *)

From Stdlib Require Import String Ascii List ZArith QArith Bool Lia DecimalString DecimalN.
From Stdlib Require FinFun.
Import ListNotations.
Open Scope string_scope.

(** ** Python values *)

(** An exception: its class name and message. *)
Record PyExc := mkExc { exc_name : string; exc_msg : string }.

(** What [play] returns: [Union[Exception, str, None]]. *)
Inductive ErrVal :=
| ErrExc (e : PyExc)
| ErrStr (s : string).

(** Python truthiness of a returned error ([if err:]). *)
Definition err_truthy (v : option ErrVal) : bool :=
  match v with
  | None => false
  | Some (ErrExc _) => true
  | Some (ErrStr s) => negb (String.eqb s "")
  end.

(** ** Strings

    A [string] is a Python [str] whose code points are all below 256: the
    character classes below are Python's on that range. *)

Definition dq : string := String (ascii_of_nat 34) EmptyString.

(** [s.split(c)] for a one-character separator. *)
Fixpoint split_on (c : ascii) (s : string) : list string :=
  match s with
  | EmptyString => [EmptyString]
  | String x r =>
      let rest := split_on c r in
      if Ascii.eqb x c then EmptyString :: rest
      else match rest with
           | w :: ws => String x w :: ws
           | [] => [String x EmptyString]
           end
  end.

(** [sep.join(l)] *)
Fixpoint join (sep : string) (l : list string) : string :=
  match l with
  | [] => EmptyString
  | [w] => w
  | w :: ws => w ++ sep ++ join sep ws
  end.

(** [s.replace(pat, rep)] (left to right, non-overlapping). *)
Fixpoint replace_fuel (n : nat) (pat rep s : string) : string :=
  match n with
  | O => s
  | S n' =>
      match s with
      | EmptyString => EmptyString
      | String x r =>
          if (negb (String.eqb pat "") && String.prefix pat s)%bool
          then rep ++ replace_fuel n' pat rep (substring (String.length pat)
                                                 (String.length s) s)
          else String x (replace_fuel n' pat rep r)
      end
  end.

Definition replace (pat rep s : string) : string :=
  replace_fuel (S (String.length s)) pat rep s.

(** The characters [str.strip()] removes ([str.isspace]): 9-13, 28-31,
    the space, U+0085 and U+00A0. *)
Definition is_space (c : ascii) : bool :=
  let n := nat_of_ascii c in
  (Nat.eqb n 32 || (Nat.leb 9 n && Nat.leb n 13) || (Nat.leb 28 n && Nat.leb n 31)
   || Nat.eqb n 133 || Nat.eqb n 160)%bool.

Fixpoint lstrip (s : string) : string :=
  match s with
  | String c r => if is_space c then lstrip r else s
  | EmptyString => EmptyString
  end.

Fixpoint rev_str (s : string) : string :=
  match s with
  | EmptyString => EmptyString
  | String c r => rev_str r ++ String c EmptyString
  end.

(** [s.strip()] *)
Definition strip (s : string) : string := rev_str (lstrip (rev_str (lstrip s))).

(** A first character of an identifier: [_] or XID_Start (the letters
    A-Z, a-z, U+00AA, U+00B5, U+00BA, U+00C0-U+00D6, U+00D8-U+00F6 and
    U+00F8-U+00FF). *)
Definition is_alpha_ (c : ascii) : bool :=
  let n := nat_of_ascii c in
  ((Nat.leb 65 n && Nat.leb n 90) || (Nat.leb 97 n && Nat.leb n 122)
   || Nat.eqb n 95 || Nat.eqb n 170 || Nat.eqb n 181 || Nat.eqb n 186
   || (Nat.leb 192 n && Nat.leb n 214) || (Nat.leb 216 n && Nat.leb n 246)
   || Nat.leb 248 n)%bool.

(** A later character of an identifier (XID_Continue): also the digits
    and U+00B7. *)
Definition is_alnum_ (c : ascii) : bool :=
  let n := nat_of_ascii c in
  (is_alpha_ c || (Nat.leb 48 n && Nat.leb n 57) || Nat.eqb n 183)%bool.

(** [s.isidentifier()] *)
Definition isidentifier (s : string) : bool :=
  match s with
  | EmptyString => false
  | String c r =>
      (is_alpha_ c &&
       (fix all (t : string) := match t with
                                | EmptyString => true
                                | String d t' => (is_alnum_ d && all t')%bool
                                end) r)%bool
  end.

(** [s[:-1]] *)
Definition drop_last_char (s : string) : string :=
  substring 0 (String.length s - 1)%nat s.

(** [l[:k]] with Python's negative indices. *)
Definition py_take {A} (k : Z) (l : list A) : list A :=
  if (k <? 0)%Z then firstn (Z.to_nat (Z.max 0 (Z.of_nat (length l) + k))) l
  else firstn (Z.to_nat k) l.

(** [l[k]] *)
Definition py_index {A} (l : list A) (k : nat) : option A := nth_error l k.

(** [extract_properties(properties)] *)
Fixpoint extract_loop (props : list string) (new_props : list string)
    (prop_str : string) : list string * string :=
  match props with
  | [] => (new_props, prop_str)
  | p :: ps =>
      let prop := split_on "=" p in
      let p0 := hd "" prop in
      if (isidentifier (strip p0) && Nat.ltb 1 (length prop))%bool
      then extract_loop ps (new_props ++ [strip prop_str]) ("" ++ join "=" prop)
      else extract_loop ps new_props (prop_str ++ "," ++ p0)
  end.

Definition extract_properties (properties : string) : list string :=
  let '(new_props, prop_str) := extract_loop (split_on "," properties) [] "" in
  tl (new_props ++ [strip prop_str]).

(** [set(l) == {'id=""', "index=-1"}] *)
Definition default_local_play_props (l : list string) : bool :=
  let a := "id=" ++ dq ++ dq in
  let b := "index=-1" in
  (forallb (fun x => String.eqb x a || String.eqb x b) l
   && existsb (String.eqb a) l && existsb (String.eqb b) l)%bool.

(** ** Data model *)

Record Region := mkRegion { region_id : nat; region_type : string }.
Record Area := mkArea { area_id : nat; area_regions : list Region }.
(** A window and the areas of its screen. *)
Record Window := mkWindow { window_id : nat; screen_areas : list Area }.

Record Macro := mkMacro {
  m_id : string;
  m_command : string;
  m_active : bool;
  m_opctx : string;   (* operator_execution_context *)
  m_ui_type : string
}.

Record Action := mkAction {
  a_id : string;
  a_macros : list Macro;
  a_execution_mode : string
}.

(** The decoded JSON object of an [ar.event:] command; a missing key is
    [None] (so [data['k']] raises [KeyError] there). *)
Record Payload := mkPayload {
  p_Type : option string;
  p_Time : option Q;
  p_StatementType : option string;
  p_PyStatement : option string;
  p_Startnumber : option Z;
  p_Endnumber : option Z;
  p_Stepnumber : option Z;
  p_RepeatCount : option Z;
  p_KeepSelection : option bool;
  p_Objects : option (list string);
  p_Object : option string;
  p_ScriptText : option string
}.

(** The Blender state read and written by playback. *)
Record World := mkWorld {
  w_objects : list string;          (* bpy.data.objects *)
  w_layer : list string;            (* context.view_layer.objects *)
  w_selected : list string;         (* objects whose select flag is set *)
  w_active : option string;         (* view_layer.objects.active *)
  w_windows : list Window;          (* context.window_manager.windows *)
  w_ui : list (nat * string);       (* ui_type of every area *)
  w_window : option Window;         (* context.window *)
  w_area : option Area;             (* context.area *)
  w_region : option Region          (* context.region *)
}.

(** The context override a command is executed under. *)
Record Ctx := mkCtx {
  c_window : option Window;
  c_area : option Area;
  c_region : option Region;
  c_object : option string          (* set by execute_individually *)
}.

(** One [exec] call: the macro, the command text executed, its context. *)
Record Invocation := mkInv { inv_macro : string; inv_command : string; inv_ctx : Ctx }.

(** A call [run_queued_macros(context_copy, macros, action, action_type,
    looping_count, macros_after_loop, macros_before_timer)] registered with
    [bpy.app.timers.register(..., first_interval)]. *)
Record Continuation := mkCont {
  k_ctx : option Ctx;
  k_macros : list Macro;
  k_action : string;
  k_action_type : string;
  k_loop : Z;
  k_after : option (list Macro);
  k_before : option (list Macro);
  k_interval : Q
}.

Record St := mkSt {
  st_world : World;
  st_action_alert : bool;                        (* action.alert *)
  st_alerts : list string;                       (* ids of macros with alert *)
  st_rc : list (string * string * string);       (* shared_data.render_complete_macros *)
  st_timers : list Continuation;                 (* bpy.app.timers, in order *)
  st_log : list Invocation;                      (* exec calls *)
  st_area_type : option (option string)          (* the local [area_type] of the running
                                                    [play] call; [None] while unbound *)
}.

Definition set_world (w : World) (s : St) : St :=
  mkSt w (st_action_alert s) (st_alerts s) (st_rc s) (st_timers s) (st_log s) (st_area_type s).
Definition set_alert (mid : string) (s : St) : St :=
  mkSt (st_world s) true (st_alerts s ++ [mid]) (st_rc s) (st_timers s) (st_log s)
       (st_area_type s).
Definition push_rc (e : string * string * string) (s : St) : St :=
  mkSt (st_world s) (st_action_alert s) (st_alerts s) (st_rc s ++ [e]) (st_timers s) (st_log s)
       (st_area_type s).
Definition push_timer (k : Continuation) (s : St) : St :=
  mkSt (st_world s) (st_action_alert s) (st_alerts s) (st_rc s) (st_timers s ++ [k]) (st_log s)
       (st_area_type s).
Definition push_log (i : Invocation) (s : St) : St :=
  mkSt (st_world s) (st_action_alert s) (st_alerts s) (st_rc s) (st_timers s) (st_log s ++ [i])
       (st_area_type s).
Definition set_area_type (v : option (option string)) (s : St) : St :=
  mkSt (st_world s) (st_action_alert s) (st_alerts s) (st_rc s) (st_timers s) (st_log s) v.

(** ** A state and exception monad with fuel *)

Inductive Res (A : Type) : Type :=
| Ok (a : A)
| Raise (e : PyExc)
| Stuck.                      (* fuel exhausted *)
Arguments Ok {A} a.
Arguments Raise {A} e.
Arguments Stuck {A}.

Definition M (A : Type) : Type := St -> Res A * St.

Definition ret {A} (a : A) : M A := fun s => (Ok a, s).
Definition bind {A B} (m : M A) (f : A -> M B) : M B :=
  fun s => match m s with
           | (Ok a, s') => f a s'
           | (Raise e, s') => (Raise e, s')
           | (Stuck, s') => (Stuck, s')
           end.
Definition raise {A} (e : PyExc) : M A := fun s => (Raise e, s).
Definition stuck {A} : M A := fun s => (Stuck, s).
Definition gets {A} (f : St -> A) : M A := fun s => (Ok (f s), s).
Definition modify (f : St -> St) : M unit := fun s => (Ok tt, f s).
(** [try: m except Exception as e: h e] *)
Definition try_except {A} (m : M A) (h : PyExc -> M A) : M A :=
  fun s => match m s with
           | (Raise e, s') => h e s'
           | r => r
           end.
(** [data[key]] *)
Definition key {A} (name : string) (o : option A) : M A :=
  match o with Some a => ret a | None => raise (mkExc "KeyError" name) end.

Notation "x <- m ;; k" := (bind m (fun x => k))
  (at level 61, m at next level, right associativity).
Notation "m ;;; k" := (bind m (fun _ => k))
  (at level 61, right associativity).

Fixpoint for_each {A} (l : list A) (f : A -> M unit) : M unit :=
  match l with
  | [] => ret tt
  | x :: xs => f x ;;; for_each xs f
  end.

Definition mem (x : string) (l : list string) : bool := existsb (String.eqb x) l.

(** [with suppress(ReferenceError): m] *)
Definition suppress_reference_error (m : M unit) : M unit :=
  try_except m (fun e => if String.eqb (exc_name e) "ReferenceError" then ret tt
                         else raise e).

(** ** Blender state access *)

(** [context.selected_objects]: the selected objects of the view layer. *)
Definition selected_objects (w : World) : list string :=
  filter (fun o => (mem o (w_objects w) && mem o (w_layer w))%bool) (w_selected w).

Definition with_selected (l : list string) (w : World) : World :=
  mkWorld (w_objects w) (w_layer w) l (w_active w) (w_windows w) (w_ui w)
          (w_window w) (w_area w) (w_region w).
Definition with_active (o : option string) (w : World) : World :=
  mkWorld (w_objects w) (w_layer w) (w_selected w) o (w_windows w) (w_ui w)
          (w_window w) (w_area w) (w_region w).
Definition with_ui (u : list (nat * string)) (w : World) : World :=
  mkWorld (w_objects w) (w_layer w) (w_selected w) (w_active w) (w_windows w) u
          (w_window w) (w_area w) (w_region w).

Definition update_world (f : World -> World) : M unit :=
  modify (fun s => set_world (f (st_world s)) s).

(** [object.select_set(b)]; a removed object raises [ReferenceError]; for
    an object outside the view layer, selecting raises [RuntimeError] (the
    error report of [rna_Object_select_set]) and deselecting does nothing. *)
Definition select_set (b : bool) (o : string) : M unit :=
  w <- gets st_world ;;
  if mem o (w_objects w) then
    if mem o (w_layer w) then
      update_world (with_selected
        (if b then (if mem o (w_selected w) then w_selected w else w_selected w ++ [o])
         else filter (fun x => negb (String.eqb x o)) (w_selected w)))
    else if b then
      raise (mkExc "RuntimeError" ("Error: Object '" ++ o
                                   ++ "' can't be selected because it is not in View Layer"))
    else ret tt
  else raise (mkExc "ReferenceError" "StructRNA of type Object has been removed").

(** [area.ui_type] *)
Definition ui_of (w : World) (a : Area) : string :=
  match find (fun p => Nat.eqb (fst p) (area_id a)) (w_ui w) with
  | Some (_, t) => t
  | None => ""
  end.

(** [area.ui_type = t] *)
Definition set_ui (a : Area) (t : string) : M unit :=
  update_world (fun w => with_ui ((area_id a, t)
                  :: filter (fun p => negb (Nat.eqb (fst p) (area_id a))) (w_ui w)) w).

(** [for region in reversed(area.regions): if region.type != "WINDOW":
    continue; temp_region = region] *)
Definition pick_region (regions : list Region) (temp_region : option Region)
    : option Region :=
  fold_left (fun cur r => if String.eqb (region_type r) "WINDOW" then Some r else cur)
            (rev regions) temp_region.

(** [split = command.split(":"); split[0] == 'ar.event'], giving
    [":".join(split[1:])], the text handed to [json.loads]. *)
Definition event_text (command : string) : option string :=
  let sp := split_on ":" command in
  if String.eqb (hd "" sp) "ar.event" then Some (join ":" (tl sp)) else None.

(** [len(numpy.arange(start, stop, step))] *)
Definition arange_len (start stop step : Z) : M nat :=
  if (step =? 0)%Z then raise (mkExc "ZeroDivisionError" "division by zero")
  else ret (Z.to_nat (Z.max 0 (- ((- (stop - start)) / step)))).

Inductive Flow :=
| FNext                          (* go on with the next macro *)
| FReturn (v : option ErrVal).   (* [return v] *)

Section Play.

(** [json.loads]: [None] when the text does not decode. *)
Variable json_loads : string -> option Payload.
(** [exec(command)] under a context override: the new Blender state and
    the exception raised, if any. *)
Variable exec_cmd : Ctx -> World -> string -> World * option PyExc.
(** [eval(statement)] as a truth value, or the exception raised. *)
Variable eval_py : World -> string -> PyExc + bool.
(** [text.as_module()] of a script text: the new state and the formatted
    traceback when it raises. *)
Variable run_script : World -> string -> World * option string.
Variable action : Action.
Variable action_type : string.

Definition decode (txt : string) : M Payload :=
  match json_loads txt with
  | Some p => ret p
  | None => raise (mkExc "JSONDecodeError" txt)
  end.

Definition alert (m : Macro) : M unit := modify (set_alert (m_id m)).

(** The pre-scan: the first [Render Complete] event registers the id of the
    macro right after it ([macros[i + 1].id]). *)
Fixpoint prescan (macros : list Macro) (i : nat) (rest : list Macro) : M unit :=
  match rest with
  | [] => ret tt
  | m :: rest' =>
      match event_text (m_command m) with
      | None => prescan macros (S i) rest'
      | Some txt =>
          data <- decode txt ;;
          ty <- key "Type" (p_Type data) ;;
          if String.eqb ty "Render Complete" then
            match py_index macros (S i) with
            | Some nx => modify (push_rc (action_type, a_id action, m_id nx))
            | None => raise (mkExc "IndexError" "list index out of range")
            end
          else prescan macros (S i) rest'
      end
  end.

(** The search for the matching [EndLoop]: [Some end_index] on a [break],
    [None] when the scan runs out with [loop_count != 0]. *)
Fixpoint find_end (loop_count : Z) (j : nat) (rest : list Macro) : M (option nat) :=
  match rest with
  | [] => ret None
  | pm :: rest' =>
      lc <- (if m_active pm then
               match event_text (m_command pm) with
               | None => ret loop_count
               | Some txt =>
                   pd <- decode txt ;;
                   ty <- key "Type" (p_Type pd) ;;
                   ret (if String.eqb ty "Loop" then (loop_count + 1)%Z
                        else if String.eqb ty "EndLoop" then (loop_count - 1)%Z
                        else loop_count)
               end
             else ret loop_count) ;;
      if (lc =? 0)%Z then ret (Some j) else find_end lc (S j) rest'
  end.

(** [exec(command)] under the override [ctx], recorded in the trace. *)
Definition exec_in (ctx : Ctx) (mid command : string) : M unit :=
  modify (push_log (mkInv mid command ctx)) ;;;
  w <- gets st_world ;;
  let '(w', e) := exec_cmd ctx w command in
  update_world (fun _ => w') ;;;
  match e with None => ret tt | Some ex => raise ex end.

(** [context.name = value]: the members of a [bpy.types.Context] are
    read-only. *)
Definition set_context_member (name : string) : M unit :=
  raise (mkExc "AttributeError"
           ("bpy_struct: Context property " ++ dq ++ name ++ dq ++ " is read-only")).

(** [execute_individually(context, command)] *)
Definition execute_individually (ctx : Ctx) (mid command : string) : M unit :=
  old_selected_objects <- gets (fun s => selected_objects (st_world s)) ;;
  for_each old_selected_objects (select_set false) ;;;
  for_each old_selected_objects (fun o =>
    select_set true o ;;;
    set_context_member "selectable_objects" ;;;
    set_context_member "object" ;;;
    set_context_member "active_object" ;;;
    update_world (with_active (Some o)) ;;;
    exec_in (mkCtx (c_window ctx) (c_area ctx) (c_region ctx) (Some o)) mid command ;;;
    suppress_reference_error (select_set false o)) ;;;
  for_each old_selected_objects (fun o => suppress_reference_error (select_set true o)).

(** [for window in windows: if window.screen.areas[0].ui_type == ui_type] *)
Fixpoint find_window (w : World) (ui_type : string) (windows : list Window)
    : M (option Window) :=
  match windows with
  | [] => ret None
  | win :: ws =>
      match screen_areas win with
      | [] => raise (mkExc "IndexError" "bpy_prop_collection[index]: index 0 out of range")
      | a0 :: _ => if String.eqb (ui_of w a0) ui_type then ret (Some win)
                   else find_window w ui_type ws
      end
  end.

(** [if base_area and area_type: base_area.ui_type = area_type] *)
Definition restore_ui (area : option Area) (area_type : option string) : M unit :=
  match area, area_type with
  | Some a, Some t => if String.eqb t "" then ret tt else set_ui a t
  | _, _ => ret tt
  end.

(** The command rewriting of [play]. *)
Definition rewrite_command (m : Macro) (command : string) : string :=
  if String.prefix "bpy.ops." command then
    let sp := split_on "(" command in
    hd "" sp ++ "(" ++ dq ++ m_opctx m ++ dq ++ ", " ++ join "(" (tl sp)
  else if String.prefix "bpy.context." command then
    replace "bpy.context." "context." command
  else command.

(** First half of the [try] block of a plain command: the Local Play guard,
    the rewriting and the choice of window, area and region.  It ends with
    an early [return] ([inl]) or the command, its context and [area_type]. *)
Definition prepare_command (m : Macro)
    : M (option ErrVal + (string * Ctx * option string)) :=
  let command := m_command m in
  guard <- (if String.prefix "bpy.ops.ar.local_play" command then
              match py_index (split_on "(" command) 1 with
              | None => raise (mkExc "IndexError" "list index out of range")
              | Some arg => ret (default_local_play_props
                                   (extract_properties (drop_last_char arg)))
              end
            else ret false) ;;
  if guard then
    alert m ;;;
    ret (inl (Some (ErrStr "Don't run Local Play with default properties, this may cause recursion")))
  else
    let command := rewrite_command m command in
    w <- gets st_world ;;
    modify (set_area_type (Some None)) ;;;
    area_type <-
      (match w_area w with
       | Some temp_area =>
           if (negb (String.eqb (m_ui_type m) "")
               && negb (String.eqb (ui_of w temp_area) (m_ui_type m)))%bool then
             found <- find_window w (m_ui_type m) (rev (w_windows w)) ;;
             match found with
             | Some _ =>
                 (* [temp_area = temp_screen.area[0]]: a Screen has [areas] only *)
                 raise (mkExc "AttributeError" "'Screen' object has no attribute 'area'")
             | None =>
                 modify (set_area_type (Some (Some (ui_of w temp_area)))) ;;;
                 set_ui temp_area (m_ui_type m) ;;; ret (Some (ui_of w temp_area))
             end
           else ret None
       | None => ret None
       end) ;;
    let temp_region := match w_area w with
                       | Some a => pick_region (area_regions a) (w_region w)
                       | None => w_region w
                       end in
    ret (inr (command, mkCtx (w_window w) (w_area w) temp_region None, area_type)).

(** The [except Exception as err] clause of the command block.  It reads
    [area_type] only when [base_area] is set; before the first
    [area_type = None] of the call that read raises [UnboundLocalError]. *)
Definition command_except (m : Macro) (base_area : option Area) (err : PyExc)
    : M (option ErrVal) :=
  alert m ;;;
  match base_area with
  | None => ret tt
  | Some _ =>
      bound <- gets st_area_type ;;
      match bound with
      | None => raise (mkExc "UnboundLocalError"
                         "cannot access local variable 'area_type' where it is not associated with a value")
      | Some area_type => restore_ui base_area area_type
      end
  end ;;;
  ret (Some (ErrExc err)).

(** The [try ... except Exception as err] block of a plain command. *)
Definition run_command (m : Macro) (base_area : option Area) : M (option ErrVal) :=
  p <- try_except (prepare_command m)
                  (fun err => r <- command_except m base_area err ;; ret (inl r)) ;;
  match p with
  | inl r => ret r
  | inr (command, ctx, area_type) =>
      try_except
        ((if String.eqb (a_execution_mode action) "GROUP"
          then exec_in ctx (m_id m) command
          else execute_individually ctx (m_id m) command) ;;;
         restore_ui (c_area ctx) area_type ;;;
         ret None)
        (command_except m base_area)
  end.

Section Scan.

(** The recursive call [play(context, ms, action, action_type, lc, after, before)]. *)
Variable rec : list Macro -> Z -> option (list Macro) -> option (list Macro)
               -> M (option ErrVal).
(** Bound on the iterations of a [while] loop. *)
Variable wfuel : nat.
Variable macros : list Macro.
Variable looping_count : Z.
Variable macros_after_loop : option (list Macro).
Variable macros_before_timer : option (list Macro).
Variable base_area : option Area.

(** [while eval(data["PyStatement"]): play(context, loop_macros, ...)] *)
Fixpoint while_py (n : nat) (data : Payload) (loop_macros : list Macro) : M unit :=
  match n with
  | O => stuck
  | S n' =>
      stmt <- key "PyStatement" (p_PyStatement data) ;;
      w <- gets st_world ;;
      match eval_py w stmt with
      | inl e => raise e
      | inr false => ret tt
      | inr true => rec loop_macros (-1) None None ;;; while_py n' data loop_macros
      end
  end.

(** [for k in numpy.arange(...): err = play(...); if err: return err] *)
Fixpoint count_loop (n : nat) (loop_macros : list Macro) : M (option ErrVal) :=
  match n with
  | O => ret None
  | S n' =>
      err <- rec loop_macros (-1) None None ;;
      if err_truthy err then ret err else count_loop n' loop_macros
  end.

Definition plain (m : Macro) : M Flow :=
  r <- run_command m base_area ;;
  match r with None => ret FNext | Some e => ret (FReturn (Some e)) end.

(** The body of the main [for i, macro in enumerate(macros)] loop. *)
Definition step (i : nat) (m : Macro) : M Flow :=
  match event_text (m_command m) with
  | None => plain m
  | Some txt =>
    data <- decode txt ;;
    ty <- key "Type" (p_Type data) ;;
    if String.eqb ty "Render Complete" then ret (FReturn None)
    else if String.eqb ty "Timer" then
      let timer_macros :=
        match macros_before_timer with
        | Some b => match b with
                    | [] => macros
                    | _ :: _ => (b ++ py_take (-1 - Z.of_nat i) macros)%list
                    end
        | None => macros
        end in
      w <- gets st_world ;;
      time <- key "Time" (p_Time data) ;;
      modify (push_timer (mkCont (Some (mkCtx (w_window w) (w_area w) (w_region w) (w_active w)))
                                 (skipn (S i) macros) (a_id action) action_type
                                 looping_count macros_after_loop (Some timer_macros) time)) ;;;
      ret (FReturn None)
    else if String.eqb ty "Loop" then
      fe <- find_end 1 (S i) (skipn (S i) macros) ;;
      match fe with
      | None => ret FNext
      | Some end_index =>
        let loop_macros := firstn (end_index - S i) (skipn (S i) macros) in
        st <- key "StatementType" (p_StatementType data) ;;
        if String.eqb st "python" then
          r <- try_except (while_py wfuel data loop_macros ;;; ret None)
                          (fun err => alert m ;;; ret (Some (ErrExc err))) ;;
          match r with Some e => ret (FReturn (Some e)) | None => plain m end
        else if String.eqb st "count" then
          a <- key "Startnumber" (p_Startnumber data) ;;
          b <- key "Endnumber" (p_Endnumber data) ;;
          c <- key "Stepnumber" (p_Stepnumber data) ;;
          n <- arange_len a b c ;;
          r <- count_loop n loop_macros ;;
          match r with Some e => ret (FReturn (Some e)) | None => plain m end
        else
          n <- key "RepeatCount" (p_RepeatCount data) ;;
          r <- rec loop_macros n (Some (skipn (S end_index) macros)) macros_before_timer ;;
          ret (FReturn r)
      end
    else if String.eqb ty "Select Object" then
      sel <- gets (fun s => selected_objects (st_world s)) ;;
      (if negb (match p_KeepSelection data with Some b => b | None => false end)
       then for_each sel (select_set false) else ret tt) ;;;
      for_each (match p_Objects data with Some l => l | None => [] end)
               (fun name => w <- gets st_world ;;
                            if mem name (w_objects w) then select_set true name else ret tt) ;;;
      let obj := match p_Object data with Some o => o | None => "" end in
      if String.eqb obj "" then ret FNext
      else
        w <- gets st_world ;;
        if (negb (mem obj (w_objects w)) || negb (mem obj (w_layer w)))%bool then
          alert m ;;;
          ret (FReturn (Some (ErrStr (obj ++ " Object doesn't exist in the active view layer"))))
        else
          update_world (with_active (Some obj)) ;;; select_set true obj ;;; ret FNext
    else if String.eqb ty "Run Script" then
      script <- key "ScriptText" (p_ScriptText data) ;;
      w <- gets st_world ;;
      let '(w', r) := run_script w script in
      update_world (fun _ => w') ;;;
      match r with
      | None => ret FNext
      | Some err => alert m ;;; ret (FReturn (Some (ErrStr err)))
      end
    else if String.eqb ty "EndLoop" then ret FNext
    else plain m
  end.

Fixpoint scan (i : nat) (rest : list Macro) : M Flow :=
  match rest with
  | [] => ret FNext
  | m :: rest' =>
      f <- step i m ;;
      match f with
      | FNext => scan (S i) rest'
      | FReturn v => ret (FReturn v)
      end
  end.

End Scan.

(** A call of [play]: its local [area_type] starts unbound, and the
    caller's binding is back when the call returns or raises. *)
Definition in_frame {A} (m : M A) : M A :=
  fun s => let '(r, s') := m (set_area_type None s) in (r, set_area_type (st_area_type s) s').

(** The body of [play(context, macros, action, action_type, looping_count,
    macros_after_loop, macros_before_timer)], with its recursive calls
    [rec]. *)
Definition play_pass (rec : list Macro -> Z -> option (list Macro) -> option (list Macro)
                            -> M (option ErrVal))
    (wfuel : nat) (macros0 : list Macro) (looping_count : Z)
    (macros_after_loop macros_before_timer : option (list Macro)) : M (option ErrVal) :=
  let macros := filter m_active macros0 in
  prescan macros 0 macros ;;;
  base_area <- gets (fun s => w_area (st_world s)) ;;
  f <- scan rec wfuel macros looping_count macros_after_loop
            macros_before_timer base_area 0 macros ;;
  match f with
  | FReturn v => ret v
  | FNext =>
    let lc := (looping_count - 1)%Z in
    if (0 <? lc)%Z then
      rec (match macros_before_timer with None => macros | Some b => b end)
          lc macros_after_loop None
    else if (lc =? 0)%Z then
      match macros_after_loop with
      | Some after => rec after (-1)%Z None None
      | None => raise (mkExc "TypeError" "'NoneType' object is not iterable")
      end
    else ret None
  end.

(** [play(...)] *)
Fixpoint play (fuel : nat) (macros0 : list Macro) (looping_count : Z)
    (macros_after_loop macros_before_timer : option (list Macro)) : M (option ErrVal) :=
  match fuel with
  | O => stuck
  | S fuel' => in_frame (play_pass (play fuel') fuel' macros0 looping_count
                                   macros_after_loop macros_before_timer)
  end.

End Play.

(** ** [execute_render_complete] *)

Section RenderComplete.

(** [getattr(ActRec_pref, action_type)]: the collection of actions of that type. *)
Variable actions_of : string -> option (list Action).

(** [getattr(ActRec_pref, action_type)[action_id]] *)
Definition lookup_action (action_type action_id : string) : M Action :=
  match actions_of action_type with
  | None => raise (mkExc "AttributeError" action_type)
  | Some acts =>
      match find (fun a => String.eqb (a_id a) action_id) acts with
      | Some a => ret a
      | None => raise (mkExc "KeyError" ("bpy_prop_collection[key]: key " ++ action_id ++ " not found"))
      end
  end.

(** [collection.find(key)]: the index of the item, or -1. *)
Fixpoint find_index (key_ : string) (ms : list Macro) : Z :=
  match ms with
  | [] => -1
  | m :: ms' => if String.eqb (m_id m) key_ then 0
                else let r := find_index key_ ms' in if (r <? 0)%Z then r else (r + 1)%Z
  end.

(** Python name resolution of an integer local. *)
Definition py_name (locals : list (string * Z)) (name : string) : M Z :=
  match find (fun p => String.eqb (fst p) name) locals with
  | Some (_, v) => ret v
  | None => raise (mkExc "NameError" ("name '" ++ name ++ "' is not defined"))
  end.

Definition pop_rc : M (option (string * string * string)) :=
  fun s => match st_rc s with
           | [] => (Ok None, s)
           | e :: q => (Ok (Some e), mkSt (st_world s) (st_action_alert s) (st_alerts s) q
                                          (st_timers s) (st_log s) (st_area_type s))
           end.

(** One turn of [while len(shared_data.render_complete_macros): ...];
    the integer locals bound at [action.macros[start:]] are [start_index]. *)
Definition drain_entry (e : string * string * string) : M unit :=
  let '(action_type, action_id, start_id) := e in
  action <- lookup_action action_type action_id ;;
  let start_index := find_index start_id (a_macros action) in
  if (start_index <? 0)%Z then ret tt
  else
    start <- py_name [("start_index", start_index)] "start" ;;
    modify (push_timer (mkCont None (skipn (Z.to_nat start) (a_macros action))
                               (a_id action) action_type (-1) None None (1 # 10))).

Fixpoint drain (n : nat) : M unit :=
  match n with
  | O => ret tt
  | S n' =>
      e <- pop_rc ;;
      match e with
      | None => ret tt
      | Some e => drain_entry e ;;; drain n'
      end
  end.

(** [execute_render_complete(dummy)] *)
Definition execute_render_complete : M unit :=
  q <- gets st_rc ;; drain (length q).

End RenderComplete.

(** ** Concrete inputs *)

Module Fx.

Definition pl (t : string) : Payload :=
  mkPayload (Some t) None None None None None None None None None None None.

Definition counted (n : Z) : Payload :=
  mkPayload (Some "Loop") None (Some "") None None None None (Some n) None None None None.

Definition python_loop (stmt : string) : Payload :=
  mkPayload (Some "Loop") None (Some "python") (Some stmt) None None None None None None None None.

Definition select (objs : list string) (obj : string) : Payload :=
  mkPayload (Some "Select Object") None None None None None None None (Some false)
            (Some objs) (Some obj) None.

Definition timer : Payload :=
  mkPayload (Some "Timer") (Some 1) None None None None None None None None None None.

(** A [json.loads] for the payload texts used below. *)
Definition json (t : string) : option Payload :=
  if String.eqb t "RC" then Some (pl "Render Complete")
  else if String.eqb t "END" then Some (pl "EndLoop")
  else if String.eqb t "TIMER" then Some timer
  else if String.eqb t "LOOP0" then Some (counted 0)
  else if String.eqb t "LOOP1" then Some (counted 1)
  else if String.eqb t "LOOP2" then Some (counted 2)
  else if String.eqb t "LOOP3" then Some (counted 3)
  else if String.eqb t "PYLOOP" then Some (python_loop "False")
  else if String.eqb t "SEL" then Some (select ["A"; "B"; "Z"] "Ghost")
  else if String.eqb t "SELC" then Some (select ["C"] "Ghost")
  else None.

Definition ev (id t : string) : Macro := mkMacro id ("ar.event:" ++ t) true "INVOKE_DEFAULT" "".
Definition cmd (id : string) : Macro :=
  mkMacro id ("bpy.ops.object." ++ id ++ "()") true "INVOKE_DEFAULT" "".

(** [exec]: a command text that starts with [ar.event] is the annotated
    statement [ar.event: {...}], whose target [ar] is not defined. *)
Definition exec_ok (_ : Ctx) (w : World) (c : string) : World * option PyExc :=
  if String.prefix "ar.event" c then (w, Some (mkExc "NameError" "name 'ar' is not defined"))
  else (w, None).

(** An [exec] that fails on every command. *)
Definition exec_fail (_ : Ctx) (w : World) (_ : string) : World * option PyExc :=
  (w, Some (mkExc "RuntimeError" "operator failed")).

Definition eval_false (_ : World) (_ : string) : PyExc + bool := inr false.
Definition no_script (w : World) (_ : string) : World * option string := (w, None).

Definition group_action (ms : list Macro) : Action := mkAction "act" ms "GROUP".
Definition individual_action (ms : list Macro) : Action := mkAction "act" ms "INDIVIDUAL".

Definition world0 : World :=
  mkWorld ["A"; "B"; "C"] ["A"; "B"; "C"] ["C"] None [] [] None None None.

Definition st0 : St := mkSt world0 false [] [] [] [] None.

(** The macro ids of the trace. *)
Definition log_ids (s : St) : list string := map inv_macro (st_log s).

End Fx.

(** ** Helpers for the statements *)

Section Statements.
Variable json_loads : string -> option Payload.

(** The [Type] of a pseudo-event, when the payload decodes and has one. *)
Definition ev_type (m : Macro) : option string :=
  match event_text (m_command m) with
  | None => None
  | Some t => match json_loads t with Some p => p_Type p | None => None end
  end.

(** A macro the scans can decode: a plain command, or an event whose
    payload decodes and carries a [Type]. *)
Definition decodes (m : Macro) : bool :=
  match event_text (m_command m) with
  | None => true
  | Some t => match json_loads t with
              | Some p => match p_Type p with Some _ => true | None => false end
              | None => false
              end
  end.

Definition has_type (ty : string) (m : Macro) : bool :=
  match ev_type m with Some t => String.eqb t ty | None => false end.

(** Decodes and is not a [Render Complete] event. *)
Definition not_rc (m : Macro) : bool :=
  (decodes m && negb (has_type "Render Complete" m))%bool.

(** Decodes and is none of [Loop], [EndLoop], [Timer], [Render Complete]. *)
Definition flat (m : Macro) : bool :=
  (decodes m && negb (has_type "Loop" m) && negb (has_type "EndLoop" m)
   && negb (has_type "Timer" m) && negb (has_type "Render Complete" m))%bool.

(** A counted [Loop] event with [RepeatCount = n]. *)
Definition counted_loop (n : Z) (m : Macro) : Prop :=
  exists t p, event_text (m_command m) = Some t /\ json_loads t = Some p /\
    p_Type p = Some "Loop" /\
    (exists st, p_StatementType p = Some st /\ st <> "python" /\ st <> "count") /\
    p_RepeatCount p = Some n.

(** Nesting depth change of a macro, as the spec counts it. *)
Definition depth_delta (m : Macro) : Z :=
  if m_active m then
    (if has_type "Loop" m then 1 else if has_type "EndLoop" m then -1 else 0)%Z
  else 0%Z.

Definition depth (l : list Macro) : Z := fold_right (fun m d => (depth_delta m + d)%Z) 0%Z l.

End Statements.

(** Running a loop body [n] times directly, stopping at the first error
    ([for _ in range(n): err = play(body); if err: return err]), then [k]. *)
Fixpoint repeat_then (n : nat) (body k : M (option ErrVal)) : M (option ErrVal) :=
  match n with
  | O => k
  | S n' => err <- body ;;
            match err with
            | Some e => ret (Some e)
            | None => repeat_then n' body k
            end
  end.

Section InOrder.
Variable exec_cmd : Ctx -> World -> string -> World * option PyExc.
Variable action : Action.

(** The command blocks of [ms] one after the other, in order, stopping at
    the first one that returns an error or raises. *)
Fixpoint run_in_order (base_area : option Area) (ms : list Macro) : M (option ErrVal) :=
  match ms with
  | [] => ret None
  | m :: ms' =>
      r <- run_command exec_cmd action m base_area ;;
      match r with
      | None => run_in_order base_area ms'
      | Some e => ret (Some e)
      end
  end.

End InOrder.

(** Fixtures for the concrete runs. *)
Module Fx2.
Import Fx.

Definition exec_all_ok (_ : Ctx) (w : World) (_ : string) : World * option PyExc := (w, None).

Definition run (ex : Ctx -> World -> string -> World * option PyExc) (act : Action)
    (ms : list Macro) (s : St) : Res (option ErrVal) * St :=
  play json ex eval_false no_script act "global_actions" 40 ms (-1) None None s.

Definition w_region_win1 : Region := mkRegion 1 "WINDOW".
Definition w_region_header : Region := mkRegion 2 "HEADER".
Definition w_region_win3 : Region := mkRegion 3 "WINDOW".
Definition view_area : Area := mkArea 7 [w_region_win1; w_region_header; w_region_win3].

Definition world_area : World :=
  mkWorld [] [] [] None [] [(7%nat, "VIEW_3D")] None (Some view_area) (Some w_region_header).

Definition world_ab : World :=
  mkWorld ["A"; "B"] ["A"; "B"] ["A"; "B"] None [] [] None None None.


Definition drain_actions (t : string) : option (list Action) :=
  if String.eqb t "global_actions" then Some [group_action [cmd "a"; cmd "b"]] else None.

Definition st_queue (q : list (string * string * string)) : St :=
  mkSt world0 false [] q [] [] None.

End Fx2.

(** ** The other helpers of shared.py and categories.py *)

(** *** [check_for_duplicates] *)

Definition is_digit (c : ascii) : bool :=
  let n := nat_of_ascii c in (Nat.leb 48 n && Nat.leb n 57)%bool.

(** A numeric character: a decimal digit, U+00B2, U+00B3, U+00B9 or
    U+00BC-U+00BE. *)
Definition is_numeric_char (c : ascii) : bool :=
  let n := nat_of_ascii c in
  (is_digit c || Nat.eqb n 178 || Nat.eqb n 179 || Nat.eqb n 185
   || (Nat.leb 188 n && Nat.leb n 190))%bool.

(** [s.isnumeric()]: non-empty, all characters numeric. *)
Definition isnumeric (s : string) : bool :=
  match s with
  | EmptyString => false
  | _ => forallb is_numeric_char (list_ascii_of_string s)
  end.

(** A decimal numeral left-padded with zeros to [w] digits. *)
Definition zpad (w : nat) (u : Decimal.uint) : Decimal.uint :=
  Nat.iter (w - Decimal.nb_digits u) Decimal.D0 u.

(** ["{:03d}".format(n)]: zero padding to width 3, the sign counted in
    the width. *)
Definition fmt03 (n : Z) : string :=
  if (n <? 0)%Z then NilEmpty.string_of_int (Decimal.Neg (zpad 2 (N.to_uint (Z.abs_N n))))
  else NilEmpty.string_of_int (Decimal.Pos (zpad 3 (N.to_uint (Z.to_N n)))).

(** [base_name] of [check_for_duplicates]: a numeric last part of the
    dotted name is dropped. *)
Definition base_name_of (name : string) : string :=
  let split := split_on "." name in
  if isnumeric (last split "") then join "." (removelast split) else name.

(** [while name in check_list: name = "{0}.{1:03d}".format(base_name, num); num += 1],
    for at most [fuel] tests ([None] when they run out). *)
Fixpoint dup_loop (fuel : nat) (check_list : list string) (base_name name : string) (num : Z)
    : option string :=
  match fuel with
  | O => None
  | S fuel' =>
      if mem name check_list
      then dup_loop fuel' check_list base_name (base_name ++ "." ++ fmt03 num) (num + 1)
      else Some name
  end.

(** [check_for_duplicates(check_list, name, num)]; the loop gets
    [len(check_list) + 2] tests, and [check_for_duplicates_total] shows
    that it always stops within them. *)
Definition check_for_duplicates (check_list : list string) (name : string) (num : Z)
    : option string :=
  dup_loop (S (S (length check_list))) check_list (base_name_of name) name num.

(** *** [split_and_keep], on texts as lists of code points *)

(** [max(text)] *)
Definition py_max (l : list nat) : option nat :=
  match l with [] => None | x :: r => Some (fold_left Nat.max r x) end.

(** [text.replace(s, s + p)] for the characters [s] and [p]. *)
Definition replace_cp (s p : nat) (t : list nat) : list nat :=
  flat_map (fun c => if Nat.eqb c s then [c; p] else [c]) t.

(** [text.split(p)] for the character [p]. *)
Fixpoint split_cp (p : nat) (t : list nat) : list (list nat) :=
  match t with
  | [] => [[]]
  | c :: r =>
      let rest := split_cp p r in
      if Nat.eqb c p then [] :: rest
      else match rest with
           | w :: ws => (c :: w) :: ws
           | [] => [[c]]
           end
  end.

(** [split_and_keep(sep, text)]: [p = chr(ord(max(text)) + 1)], then every
    character of [sep] gets [p] appended, then the text is split at [p]. *)
Definition split_and_keep (sep text : list nat) : PyExc + list (list nat) :=
  match py_max text with
  | None => inl (mkExc "ValueError" "max() arg is an empty sequence")
  | Some m =>
      if (N.of_nat (S m) <? 1114112)%N then
        inr (split_cp (S m) (fold_left (fun t s => replace_cp s (S m) t) sep text))
      else inl (mkExc "ValueError" "chr() arg not in range(0x110000)")
  end.

(** *** Collection helpers *)

Definition remove_at {A} (i : nat) (l : list A) : list A := (firstn i l ++ skipn (S i) l)%list.
Definition insert_at {A} (i : nat) (x : A) (l : list A) : list A := (firstn i l ++ x :: skipn i l)%list.

(** [collection.move(src, dst)]: the item at [src] is taken out and put
    back at position [dst].  Only moves inside the collection are modelled;
    any other is [None]. *)
Definition coll_move {A} (l : list A) (src dst : Z) : option (list A) :=
  if ((0 <=? src) && (src <? Z.of_nat (length l)) && (0 <=? dst) && (dst <? Z.of_nat (length l)))%Z
  then match nth_error l (Z.to_nat src) with
       | Some x => Some (insert_at (Z.to_nat dst) x (remove_at (Z.to_nat src) l))
       | None => None
       end
  else None.

(** [swap_collection_items(collection, index_1, index_2)] *)
Definition swap_collection_items {A} (collection : list A) (index_1 index_2 : Z) : option (list A) :=
  let n := Z.of_nat (length collection) in
  let index_1 := if (n <=? index_1)%Z then (n - 1)%Z else index_1 in
  let index_2 := if (n <=? index_2)%Z then (n - 1)%Z else index_2 in
  if (index_1 =? index_2)%Z then Some collection
  else
    let '(index_1, index_2) :=
      if (index_1 <? index_2)%Z then (index_2, index_1) else (index_1, index_2) in
    match coll_move collection index_1 index_2 with
    | Some c => coll_move c (index_2 + 1) index_1
    | None => None
    end.

(** [insert_to_collection(collection, index, data)]; [item] is the element
    [collection.add()] creates, once [apply_data_to_item] has filled it. *)
Definition insert_to_collection {A} (collection : list A) (index : Z) (item : A)
    : option (list A) :=
  let collection := (collection ++ [item])%list in
  if (index <? Z.of_nat (length collection))%Z
  then coll_move collection (Z.of_nat (length collection) - 1) index
  else Some collection.

(** *** [update_command] *)

(** [s.split(c, 1)], when [c] occurs in [s]. *)
Fixpoint split_first (c : ascii) (s : string) : option (string * string) :=
  match s with
  | EmptyString => None
  | String x r =>
      if Ascii.eqb x c then Some (EmptyString, r)
      else match split_first c r with
           | Some (a, b) => Some (String x a, b)
           | None => None
           end
  end.

(** [for value in values: if value[0] == identifier: ... break] *)
Fixpoint find_value (identifier : string) (values : list (list string)) : option (list string) :=
  match values with
  | [] => None
  | v :: vs => if String.eqb (hd "" v) identifier then Some v else find_value identifier vs
  end.

(** [values.remove(value)] *)
Fixpoint remove_first (value : list string) (values : list (list string))
    : option (list (list string)) :=
  match values with
  | [] => None
  | w :: ws =>
      if list_eq_dec string_dec w value then Some ws
      else match remove_first value ws with
           | Some ws' => Some (w :: ws')
           | None => None
           end
  end.

(** [for prop in props: for value in values: ...] *)
Fixpoint update_loop (props : list string) (values : list (list string)) (inputs : list string)
    : PyExc + list string :=
  match props with
  | [] => inr inputs
  | prop :: ps =>
      match find_value prop values with
      | None => update_loop ps values inputs
      | Some value =>
          match nth_error value 1 with
          | None => inl (mkExc "IndexError" "list index out of range")
          | Some v1 =>
              match remove_first value values with
              | None => inl (mkExc "ValueError" "list.remove(x): x not in list")
              | Some values' => update_loop ps values' (inputs ++ [hd "" value ++ "=" ++ v1])
              end
          end
      end
  end.

(** [update_command(command)]; [inr None] is [return False].
    [rna_properties op] gives the identifiers of
    [op.get_rna_type().properties], or the exception evaluating it raises. *)
Definition update_command (rna_properties : string -> PyExc + list string) (command : string)
    : PyExc + option string :=
  if String.prefix "bpy.ops." command then
    match split_first "(" command with
    | None => inl (mkExc "ValueError" "not enough values to unpack (expected 2, got 1)")
    | Some (command, values) =>
        let values := map (split_on "=") (extract_properties (drop_last_char values)) in
        match rna_properties command with
        | inl e => if String.eqb (exc_name e) "KeyError" then inr None else inl e
        | inr props =>
            match update_loop (tl props) values [] with
            | inl e => inl e
            | inr inputs => inr (Some (command ++ "(" ++ join ", " inputs ++ ")"))
            end
        end
    end
  else inr None.

(** *** [get_categorized_view_3d_modes] *)

Record EnumItem := mkEnumItem {
  ei_identifier : string; ei_name : string; ei_description : string; ei_icon : string;
  ei_value : Z
}.

(** An entry of an enum property list: a heading [("", name, "")] or an
    item [(identifier, name, description, icon, value)]. *)
Inductive EnumEntry :=
| Heading (name : string)
| Entry (identifier name description icon : string) (value : Z).

(** [mode[0]] *)
Definition entry_id (e : EnumEntry) : string :=
  match e with Heading _ => "" | Entry i _ _ _ _ => i end.

(** [enum_items_to_enum_prop_list(items, value_offset)] *)
Definition enum_items_to_enum_prop_list (items : list EnumItem) (value_offset : Z)
    : list EnumEntry :=
  map (fun it => Entry (ei_identifier it) (ei_name it) (ei_description it) (ei_icon it)
                       (ei_value it + value_offset)) items.

(** [pat in s] for strings. *)
Definition contains (pat s : string) : bool :=
  match String.index 0 pat s with Some _ => true | None => false end.

Definition categorize (acc : list EnumEntry * list EnumEntry * list EnumEntry) (mode : EnumEntry)
    : list EnumEntry * list EnumEntry * list EnumEntry :=
  let '(general, grease_pencil, curves) := acc in
  if contains "GPENCIL" (entry_id mode) then (general, grease_pencil ++ [mode], curves)%list
  else if contains "CURVES" (entry_id mode) then (general, grease_pencil, curves ++ [mode])%list
  else (general ++ [mode], grease_pencil, curves)%list.

(** [get_categorized_view_3d_modes(items, value_offset)] *)
Definition get_categorized_view_3d_modes (items : list EnumItem) (value_offset : Z)
    : list EnumEntry :=
  let '(general, grease_pencil, curves) :=
    fold_left categorize (enum_items_to_enum_prop_list items value_offset)
              ([Heading "General"], [Heading "Grease Pencil"], [Heading "Curves"]) in
  (general ++ grease_pencil ++ curves)%list.

(** *** categories.py *)

Record CatArea := mkCatArea { ca_type : string; ca_modes : list string }.
(** A category; [cat_name] is its [name], the key [collection.find] looks up. *)
Record Category := mkCategory { cat_name : string; cat_id : string; cat_areas : list CatArea }.
(** The add-on preferences read here. *)
Record Prefs := mkPrefs { categories : list Category; selected_category : string }.

(** [ActRec_pref.categories.find(id)]: the index of the first category
    named [id], or -1. *)
Fixpoint find_category (id : string) (cs : list Category) : Z :=
  match cs with
  | [] => -1
  | c :: cs' => if String.eqb (cat_name c) id then 0
                else let r := find_category id cs' in if (r <? 0)%Z then r else (r + 1)%Z
  end.

(** [get_category_id(ActRec_pref, id, index)] *)
Definition get_category_id (ActRec_pref : Prefs) (id : string) (index : Z) : string :=
  if (find_category id (categories ActRec_pref) =? -1)%Z then
    if ((0 <=? index) && (index <? Z.of_nat (length (categories ActRec_pref))))%Z
    then match nth_error (categories ActRec_pref) (Z.to_nat index) with
         | Some c => cat_id c
         | None => selected_category ActRec_pref
         end
    else selected_category ActRec_pref
  else id.

(** ** Predicates of the properties of the helpers *)

(** Every occurrence of [s] in [t] is immediately followed by [p]. *)
Fixpoint followed (p s : nat) (t : list nat) : Prop :=
  match t with
  | [] => True
  | c :: r => (c = s -> hd_error r = Some p) /\ followed p s r
  end.

(** A property [k=v] extract_properties reads back. *)
Definition good_property (kv : string * string) : Prop :=
  isidentifier (fst kv) = true /\ ~ In ","%char (list_ascii_of_string (snd kv)) /\
  lstrip (rev_str (snd kv)) = rev_str (snd kv).

(** The two default properties of [bpy.ops.ar.local_play]: [id=""] and [index=-1]. *)
Definition local_play_default (kv : string * string) : Prop :=
  kv = ("id", dq ++ dq)%string \/ kv = ("index", "-1").

(** Inputs of the runs of the helpers' properties. *)
Module Fx3.
Import Fx.

(** The 3D view (area 1) and an image editor (area 2). *)
Definition area_view : Area := mkArea 1 [].
Definition area_image : Area := mkArea 2 [].

(** The context area is the 3D view; a second window shows the image
    editor in its first area. *)
Definition world_image_window : World :=
  mkWorld [] [] [] None [mkWindow 1 [area_view]; mkWindow 2 [area_image]]
          [(1%nat, "VIEW_3D"); (2%nat, "IMAGE_EDITOR")] None (Some area_view) None.


Definition st_world_of (w : World) : St := mkSt w false [] [] [] [] None.

(** A plain command recorded in the image editor. *)
Definition image_macro : Macro :=
  mkMacro "img" "bpy.ops.image.new()" true "INVOKE_DEFAULT" "IMAGE_EDITOR".

(** [bpy.ops.ar.local_play(id="", index=-1)] *)
Definition local_play_macro : Macro :=
  mkMacro "lp" ("bpy.ops.ar.local_play(id=" ++ dq ++ dq ++ ", index=-1)") true "INVOKE_DEFAULT" "".

End Fx3.

(** ** Frame conditions *)

(** [m] leaves the observation [g] of the state unchanged. *)
Definition Preserves {A B} (g : St -> B) (m : M A) : Prop :=
  forall s, g (snd (m s)) = g s.

(** [m] never runs out of fuel. *)
Definition NoStuck {A} (m : M A) : Prop := forall s, fst (m s) <> Stuck.

(** The observations a command that only touches Blender state or alert
    flags leaves alone. *)
Definition trace_of (s : St) : list Invocation * list Continuation * list (string * string * string) :=
  (st_log s, st_timers s, st_rc s).

(** Everything but the selection. *)
Definition except_sel (s : St) :=
  (st_action_alert s, st_alerts s, trace_of s, w_objects (st_world s), w_layer (st_world s)).

(** A postcondition on the value of a normal return. *)
Definition Post {A} (m : M A) (Q : A -> Prop) : Prop :=
  forall s, match fst (m s) with Ok a => Q a | _ => True end.

(** A plain command: not a pseudo-event. *)
Definition plain_cmd (m : Macro) : Prop := event_text (m_command m) = None.

(** * General lemmas *)

Lemma bind_pres {A B C} (g : St -> C) (m : M A) (f : A -> M B) :
  Preserves g m -> (forall a, Preserves g (f a)) -> Preserves g (bind m f).
Proof.
  unfold Preserves, bind; intros Hm Hf s.
  specialize (Hm s); destruct (m s) as [[a| e|] s']; simpl in *; congruence.
Qed.

Lemma bind_nostuck {A B} (m : M A) (f : A -> M B) :
  NoStuck m -> (forall a, NoStuck (f a)) -> NoStuck (bind m f).
Proof.
  unfold NoStuck, bind; intros Hm Hf s.
  specialize (Hm s); destruct (m s) as [[a| e|] s']; simpl in *; auto; discriminate.
Qed.

Lemma try_pres {A C} (g : St -> C) (m : M A) (h : PyExc -> M A) :
  Preserves g m -> (forall e, Preserves g (h e)) -> Preserves g (try_except m h).
Proof.
  unfold Preserves, try_except; intros Hm Hh s.
  specialize (Hm s); destruct (m s) as [[a| e|] s']; simpl in *; congruence.
Qed.

Lemma try_nostuck {A} (m : M A) (h : PyExc -> M A) :
  NoStuck m -> (forall e, NoStuck (h e)) -> NoStuck (try_except m h).
Proof.
  unfold NoStuck, try_except; intros Hm Hh s.
  specialize (Hm s); destruct (m s) as [[a| e|] s']; simpl in *; auto.
Qed.

Lemma ret_pres {A C} (g : St -> C) (a : A) : Preserves g (ret a).
Proof. intro s; reflexivity. Qed.
Lemma raise_pres {A C} (g : St -> C) (e : PyExc) : Preserves g (@raise A e).
Proof. intro s; reflexivity. Qed.
Lemma gets_pres {A C} (g : St -> C) (f : St -> A) : Preserves g (gets f).
Proof. intro s; reflexivity. Qed.
Lemma ret_nostuck {A} (a : A) : NoStuck (ret a).
Proof. intros s; discriminate. Qed.
Lemma raise_nostuck {A} (e : PyExc) : NoStuck (@raise A e).
Proof. intros s; discriminate. Qed.
Lemma gets_nostuck {A} (f : St -> A) : NoStuck (gets f).
Proof. intros s; discriminate. Qed.
Lemma modify_nostuck (f : St -> St) : NoStuck (modify f).
Proof. intros s; discriminate. Qed.

Lemma update_world_pres (f : World -> World) : Preserves trace_of (update_world f).
Proof. intro s; reflexivity. Qed.
Lemma set_area_type_pres v : Preserves trace_of (modify (set_area_type v)).
Proof. intro s; reflexivity. Qed.

Lemma key_pres {A C} (g : St -> C) n (o : option A) : Preserves g (key n o).
Proof. destruct o; intro s; reflexivity. Qed.
Lemma key_nostuck {A} n (o : option A) : NoStuck (key n o).
Proof. destruct o; intro s; discriminate. Qed.

Lemma for_each_pres {A C} (g : St -> C) (l : list A) (f : A -> M unit) :
  (forall a, Preserves g (f a)) -> Preserves g (for_each l f).
Proof.
  intros Hf; induction l as [|x xs IH]; simpl.
  - apply ret_pres.
  - apply bind_pres; auto.
Qed.

Lemma for_each_nostuck {A} (l : list A) (f : A -> M unit) :
  (forall a, NoStuck (f a)) -> NoStuck (for_each l f).
Proof.
  intros Hf; induction l as [|x xs IH]; simpl.
  - apply ret_nostuck.
  - apply bind_nostuck; auto.
Qed.

Create HintDb frame.
#[local] Hint Resolve bind_pres try_pres ret_pres raise_pres gets_pres update_world_pres
  set_area_type_pres
  key_pres for_each_pres bind_nostuck try_nostuck ret_nostuck raise_nostuck
  gets_nostuck modify_nostuck key_nostuck for_each_nostuck : frame.

(** Decompose a frame goal through the monadic structure. *)
Ltac frame :=
  repeat match goal with
         | |- forall _, _ => intro
         | |- Preserves _ (match ?x with _ => _ end) => destruct x
         | |- NoStuck (match ?x with _ => _ end) => destruct x
         | |- Preserves _ (if ?b then _ else _) => destruct b
         | |- NoStuck (if ?b then _ else _) => destruct b
         | |- Preserves _ (bind _ _) => apply bind_pres
         | |- NoStuck (bind _ _) => apply bind_nostuck
         | |- Preserves _ (try_except _ _) => apply try_pres
         | |- NoStuck (try_except _ _) => apply try_nostuck
         | |- Preserves _ (for_each _ _) => apply for_each_pres
         | |- NoStuck (for_each _ _) => apply for_each_nostuck
         end; eauto with frame.

Lemma select_set_pres b o : Preserves trace_of (select_set b o).
Proof. unfold select_set; frame. Qed.
Lemma select_set_nostuck b o : NoStuck (select_set b o).
Proof. unfold select_set, update_world; frame. Qed.
Lemma set_ui_pres a t : Preserves trace_of (set_ui a t).
Proof. unfold set_ui; frame. Qed.
Lemma set_ui_nostuck a t : NoStuck (set_ui a t).
Proof. unfold set_ui, update_world; frame. Qed.
Lemma restore_ui_pres a t : Preserves trace_of (restore_ui a t).
Proof. unfold restore_ui; destruct a, t; frame; apply set_ui_pres. Qed.
Lemma restore_ui_nostuck a t : NoStuck (restore_ui a t).
Proof. unfold restore_ui; destruct a, t; frame; apply set_ui_nostuck. Qed.

Lemma select_set_except b o : Preserves except_sel (select_set b o).
Proof.
  unfold select_set, bind, gets, update_world, modify; intro s; simpl.
  destruct (mem o (w_objects (st_world s))), (mem o (w_layer (st_world s))), b; reflexivity.
Qed.

Lemma restore_ui_run a t s :
  exists s', restore_ui a t s = (Ok tt, s') /\ trace_of s' = trace_of s.
Proof.
  unfold restore_ui, set_ui, update_world, modify.
  destruct a, t; try destruct (String.eqb _ _); eexists; split; reflexivity.
Qed.
#[local] Hint Resolve select_set_pres select_set_nostuck set_ui_pres set_ui_nostuck
  restore_ui_pres restore_ui_nostuck : frame.


Lemma bind_post {A B} (m : M A) (f : A -> M B) (Q : B -> Prop) :
  (forall a, Post (f a) Q) -> Post (bind m f) Q.
Proof.
  unfold Post, bind; intros Hf s.
  destruct (m s) as [[a| e|] s']; simpl; [exact (Hf a s') | exact I | exact I].
Qed.

Lemma ret_post {A} (a : A) (Q : A -> Prop) : Q a -> Post (ret a) Q.
Proof. intros H s; exact H. Qed.
Lemma raise_post {A} e (Q : A -> Prop) : Post (raise e) Q.
Proof. intros s; exact I. Qed.

Lemma find_window_pres w t ws : Preserves trace_of (find_window w t ws).
Proof. induction ws as [|win ws IH]; simpl; frame. Qed.
Lemma find_window_nostuck w t ws : NoStuck (find_window w t ws).
Proof. induction ws as [|win ws IH]; simpl; frame. Qed.
Lemma alert_pres m : Preserves trace_of (alert m).
Proof. intro s; reflexivity. Qed.
Lemma alert_nostuck m : NoStuck (alert m).
Proof. intro s; discriminate. Qed.
#[local] Hint Resolve find_window_pres find_window_nostuck alert_pres alert_nostuck : frame.

Lemma prepare_command_pres m : Preserves trace_of (prepare_command m).
Proof. unfold prepare_command; frame. Qed.
Lemma prepare_command_nostuck m : NoStuck (prepare_command m).
Proof. unfold prepare_command; frame. Qed.

(** An early return of the command block always carries an error. *)
Lemma prepare_command_early m :
  Post (prepare_command m) (fun p => match p with inl r => r <> None | inr _ => True end).
Proof.
  unfold prepare_command. apply bind_post; intros [|].
  - apply bind_post; intros _; apply ret_post; discriminate.
  - apply bind_post; intros w; apply bind_post; intros _; apply bind_post; intros at_.
    apply ret_post; exact I.
Qed.

Lemma bind_ok {A B} (m : M A) (f : A -> M B) s a s1 :
  m s = (Ok a, s1) -> bind m f s = f a s1.
Proof. unfold bind; intros ->; reflexivity. Qed.

Lemma bind_raise {A B} (m : M A) (f : A -> M B) s e s1 :
  m s = (Raise e, s1) -> bind m f s = (Raise e, s1).
Proof. unfold bind; intros ->; reflexivity. Qed.

Lemma bind_ret_l {A B} (a : A) (f : A -> M B) : bind (ret a) f = f a.
Proof. reflexivity. Qed.

Lemma bind_post2 {A B} (m : M A) (f : A -> M B) (P : A -> Prop) (Q : B -> Prop) :
  Post m P -> (forall a, P a -> Post (f a) Q) -> Post (bind m f) Q.
Proof.
  unfold Post, bind; intros Hm Hf s. specialize (Hm s).
  destruct (m s) as [[a| e|] s']; simpl in *; [exact (Hf a Hm s') | exact I | exact I].
Qed.

Lemma mem_false x l : ~ In x l -> mem x l = false.
Proof.
  intros H; unfold mem. destruct (existsb (String.eqb x) l) eqn:E; [|reflexivity].
  apply existsb_exists in E; destruct E as [y [Hy Ey]]; apply String.eqb_eq in Ey; subst.
  contradiction.
Qed.

Section Theorems.

Variable json_loads : string -> option Payload.
Variable exec_cmd : Ctx -> World -> string -> World * option PyExc.
Variable eval_py : World -> string -> PyExc + bool.
Variable run_script : World -> string -> World * option string.
Variable action : Action.
Variable action_type : string.

Local Abbreviation play := (play json_loads exec_cmd eval_py run_script action action_type).
Local Abbreviation scan := (scan json_loads exec_cmd eval_py run_script action action_type).
Local Abbreviation step := (step json_loads exec_cmd eval_py run_script action action_type).
Local Abbreviation prescan := (prescan json_loads action action_type).
Local Abbreviation run_command := (run_command exec_cmd action).
Local Abbreviation exec_in := (exec_in exec_cmd).
Local Abbreviation execute_individually := (execute_individually exec_cmd).
Local Abbreviation run_in_order := (run_in_order exec_cmd action).
Local Abbreviation play_pass := (play_pass json_loads exec_cmd eval_py run_script action action_type).

Lemma log_of_trace s1 s : trace_of s1 = trace_of s -> st_log s1 = st_log s.
Proof. unfold trace_of; congruence. Qed.

Lemma command_except_pres m ba e : Preserves trace_of (command_except m ba e).
Proof. unfold command_except; destruct ba; frame. Qed.
Lemma command_except_nostuck m ba e : NoStuck (command_except m ba e).
Proof. unfold command_except; destruct ba; frame. Qed.
Lemma command_except_post m ba e : Post (command_except m ba e) (fun r => r <> None).
Proof.
  unfold command_except. apply bind_post; intros _. apply bind_post; intros _.
  apply ret_post; discriminate.
Qed.

(** In GROUP mode a plain command is executed at most once, and exactly
    once when the block returns no error. *)
Lemma run_command_group m ba s :
  a_execution_mode action = "GROUP" ->
  exists L, st_log (snd (run_command m ba s)) = (st_log s ++ L)%list /\
    (map inv_macro L = [] \/ map inv_macro L = [m_id m]) /\
    (fst (run_command m ba s) = Ok None -> map inv_macro L = [m_id m]).
Proof.
  intros Hg. unfold run_command, bind, try_except.
  pose proof (prepare_command_pres m s) as Hp.
  pose proof (prepare_command_nostuck m s) as Hn.
  pose proof (prepare_command_early m s) as He.
  destruct (prepare_command m s) as [[p| e|] s1]; simpl in Hp, Hn, He;
    apply log_of_trace in Hp.
  - destruct p as [r|[[command ctx] at_]].
    + exists []. simpl. rewrite app_nil_r, Hp. split; [reflexivity|].
      split; [left; reflexivity|]. intros Hr. cbv [ret] in Hr. simpl in Hr. injection Hr as ->.
      contradiction.
    + rewrite Hg, String.eqb_refl. unfold try_except, exec_in, bind, modify, gets.
      simpl.
      destruct (exec_cmd ctx (st_world s1) command) as [w' [ex|]] eqn:Ex; simpl.
      * set (s2 := set_world w' (push_log (mkInv (m_id m) command ctx) s1)).
        pose proof (command_except_pres m ba ex s2) as H3.
        pose proof (command_except_post m ba ex s2) as H3'.
        destruct (command_except m ba ex s2) as [r3 s3]. simpl in H3, H3' |- *.
        apply log_of_trace in H3.
        exists [mkInv (m_id m) command ctx]. rewrite H3. unfold s2; simpl. rewrite Hp.
        split; [reflexivity|]. split; [right; reflexivity|]. intros _; reflexivity.
      * destruct (restore_ui_run (c_area ctx) at_ (set_world w'
                    (push_log (mkInv (m_id m) command ctx) s1))) as [s3 [-> H3]].
        apply log_of_trace in H3. cbn in H3.
        exists [mkInv (m_id m) command ctx]. cbn.
        rewrite H3, Hp. repeat split; auto.
  - pose proof (command_except_pres m ba e s1) as H3.
    pose proof (command_except_post m ba e s1) as H3'.
    unfold bind. destruct (command_except m ba e s1) as [[r|e'|] s3]; simpl in H3, H3' |- *;
      apply log_of_trace in H3; exists []; rewrite app_nil_r, H3, Hp;
      (split; [reflexivity|]); (split; [left; reflexivity|]); try discriminate.
    intros Hr. cbv [ret] in Hr. simpl in Hr. injection Hr as ->. contradiction.
  - exfalso; apply Hn; reflexivity.
Qed.

Lemma prescan_plain ms i rest s :
  Forall plain_cmd rest -> prescan ms i rest s = (Ok tt, s).
Proof.
  intros H; revert i s; induction H as [|m rest Hm _ IH]; intros i s; simpl.
  - reflexivity.
  - unfold plain_cmd in Hm; rewrite Hm; apply IH.
Qed.

Lemma step_plain rec wf ms lc af bf ba i m :
  plain_cmd m ->
  step rec wf ms lc af bf ba i m =
  plain exec_cmd action ba m.
Proof. unfold plain_cmd, step; intros ->; reflexivity. Qed.

(** Over plain commands the main scan is [run_in_order]. *)
Lemma scan_run_in_order rec wf ms lc af bf ba i rest s :
  Forall plain_cmd rest ->
  scan rec wf ms lc af bf ba i rest s =
  (r <- run_in_order ba rest ;;
   ret (match r with None => FNext | Some e => FReturn (Some e) end)) s.
Proof.
  intros H; revert i s; induction H as [|m rest Hm _ IH]; intros i s; [reflexivity|].
  cbn [scan run_in_order]. rewrite step_plain by exact Hm. unfold plain, bind.
  destruct (run_command m ba s) as [[[e|]|e|] s1]; try reflexivity.
  cbv [ret]. rewrite IH. reflexivity.
Qed.

Lemma in_frame_ext {A} (m m' : M A) s :
  m (set_area_type None s) = m' (set_area_type None s) -> in_frame m s = in_frame m' s.
Proof. unfold in_frame; intros ->; reflexivity. Qed.

Lemma run_in_order_group ba l : forall s,
  a_execution_mode action = "GROUP" ->
  exists L k,
    st_log (snd (run_in_order ba l s)) = (st_log s ++ L)%list /\
    map inv_macro L = map m_id (firstn k l) /\
    (fst (run_in_order ba l s) = Ok None -> map inv_macro L = map m_id l).
Proof.
  induction l as [|m l IH]; intros s Hg.
  - exists [], 0%nat. simpl. rewrite app_nil_r. repeat split; auto.
  - cbn [run_in_order]. unfold bind.
    destruct (run_command_group m ba s Hg) as (L & Hl & Hone & Hnone).
    destruct (run_command m ba s) as [r s1]; simpl in Hl, Hnone.
    destruct r as [[e|]|e|].
    + destruct Hone as [H0|H1].
      * exists L, 0%nat. simpl. split; [exact Hl|]. split; [exact H0|].
        intros Hr; cbv [ret] in Hr; simpl in Hr; discriminate Hr.
      * exists L, 1%nat. simpl. split; [exact Hl|]. split; [exact H1|].
        intros Hr; cbv [ret] in Hr; simpl in Hr; discriminate Hr.
    + destruct (IH s1 Hg) as (L' & k & Hl' & Hm' & Hk).
      exists (L ++ L')%list, (S k). rewrite Hl', Hl, app_assoc. simpl.
      rewrite map_app, Hnone by reflexivity. split; [reflexivity|].
      split; [rewrite Hm'; reflexivity|].
      intros Hr. rewrite (Hk Hr). reflexivity.
    + destruct Hone as [H0|H1].
      * exists L, 0%nat. simpl. split; [exact Hl|]. split; [exact H0|].
        intros Hr; cbv [ret] in Hr; simpl in Hr; discriminate Hr.
      * exists L, 1%nat. simpl. split; [exact Hl|]. split; [exact H1|].
        intros Hr; cbv [ret] in Hr; simpl in Hr; discriminate Hr.
    + destruct Hone as [H0|H1].
      * exists L, 0%nat. simpl. split; [exact Hl|]. split; [exact H0|].
        intros Hr; cbv [ret] in Hr; simpl in Hr; discriminate Hr.
      * exists L, 1%nat. simpl. split; [exact Hl|]. split; [exact H1|].
        intros Hr; cbv [ret] in Hr; simpl in Hr; discriminate Hr.
Qed.

(** C1 (amended): for a macro sequence with no pseudo-events, [play] runs
    the command blocks of the active macros one after the other, in
    sequence order, and stops at the first block that returns an error or
    raises; inactive macros are never run.  In GROUP mode the trace gains
    the commands of a prefix of the active macros, each executed once, and
    all of them when [play] returns no error. *)
Theorem play_plain_sequence fuel ms s :
  a_execution_mode action = "GROUP" ->
  Forall plain_cmd ms ->
  play (S fuel) ms (-1) None None s =
    in_frame (run_in_order (w_area (st_world s)) (filter m_active ms)) s /\
  exists L k,
    st_log (snd (play (S fuel) ms (-1) None None s)) = (st_log s ++ L)%list /\
    map inv_macro L = map m_id (firstn k (filter m_active ms)) /\
    (fst (play (S fuel) ms (-1) None None s) = Ok None ->
     map inv_macro L = map m_id (filter m_active ms)).
Proof.
  intros Hg H.
  assert (Hf : Forall plain_cmd (filter m_active ms)).
  { apply Forall_forall; intros x Hx. apply filter_In in Hx.
    rewrite Forall_forall in H; apply H, Hx. }
  assert (Heq : play (S fuel) ms (-1) None None s =
                in_frame (run_in_order (w_area (st_world s)) (filter m_active ms)) s).
  { cbn [play]. apply in_frame_ext. unfold play_pass. cbv zeta.
    unfold bind at 1. rewrite prescan_plain by exact Hf.
    unfold bind at 1, gets at 1. cbv beta iota.
    unfold bind at 1. rewrite scan_run_in_order by exact Hf. unfold bind.
    destruct (run_in_order _ _ _) as [[[e|]|e|] s1]; reflexivity. }
  split; [exact Heq|]. rewrite Heq. unfold in_frame.
  destruct (run_in_order_group (w_area (st_world s)) (filter m_active ms)
              (set_area_type None s) Hg) as (L & k & Hl & Hm & Hk).
  destruct (run_in_order _ _ (set_area_type None s)) as [r s1]. simpl in Hl, Hk |- *.
  exists L, k. split; [exact Hl|]. split; [exact Hm | exact Hk].
Qed.





Lemma prescan_skip ms i m rest s :
  not_rc json_loads m = true ->
  prescan ms i (m :: rest) s = prescan ms (S i) rest s.
Proof.
  unfold not_rc, decodes, has_type, ev_type. intros H. cbn [prescan].
  destruct (event_text (m_command m)) as [t|]; [|reflexivity].
  unfold decode. destruct (json_loads t) as [p|]; [|discriminate].
  destruct (p_Type p) as [ty|] eqn:Ety; [|discriminate].
  rewrite (bind_ok (ret p) _ s p s) by reflexivity.
  rewrite (bind_ok (key "Type" (p_Type p)) _ s ty s) by (rewrite Ety; reflexivity).
  simpl in H. apply negb_true_iff in H. rewrite H. reflexivity.
Qed.

Lemma prescan_last ms pre rc i s :
  (i + length pre + 1)%nat = length ms ->
  forallb (not_rc json_loads) pre = true ->
  has_type json_loads "Render Complete" rc = true ->
  prescan ms i (pre ++ [rc])%list s = (Raise (mkExc "IndexError" "list index out of range"), s).
Proof.
  revert i; induction pre as [|m pre IH]; intros i Hlen Hpre Hrc.
  - simpl app. cbn [prescan]. unfold has_type, ev_type in Hrc.
    destruct (event_text (m_command rc)) as [t|]; [|discriminate].
    unfold decode. destruct (json_loads t) as [p|]; [|discriminate].
    destruct (p_Type p) as [ty|] eqn:Ety; [|discriminate].
    rewrite (bind_ok (ret p) _ s p s) by reflexivity.
    rewrite (bind_ok (key "Type" (p_Type p)) _ s ty s) by (rewrite Ety; reflexivity).
    rewrite Hrc. unfold py_index.
    rewrite (proj2 (nth_error_None ms (S i))) by (simpl in Hlen; lia). reflexivity.
  - simpl in Hpre. apply andb_true_iff in Hpre. destruct Hpre as [Hm Hpre].
    simpl app. rewrite prescan_skip by exact Hm.
    apply IH; [simpl in Hlen; lia | exact Hpre | exact Hrc].
Qed.

(** C10 (amended): when the first [Render Complete] event among the active
    macros is the last active macro (and the pseudo-events before it are
    well formed), the pre-scan evaluates [macros[i + 1]] past the end:
    [play] raises [IndexError] before executing any macro, with the state
    untouched. *)
Theorem render_complete_last_raises fuel ms pre rc lc af bf s :
  filter m_active ms = (pre ++ [rc])%list ->
  forallb (not_rc json_loads) pre = true ->
  has_type json_loads "Render Complete" rc = true ->
  play (S fuel) ms lc af bf s = (Raise (mkExc "IndexError" "list index out of range"), s).
Proof.
  intros Hf Hpre Hrc. cbn [play]. unfold in_frame, play_pass; cbv zeta.
  rewrite Hf. unfold bind at 1.
  rewrite prescan_last; [destruct s; reflexivity | | exact Hpre | exact Hrc].
  rewrite length_app; simpl; lia.
Qed.

Lemma find_end_unmatched d j rest s :
  forallb (decodes json_loads) rest = true ->
  (forall k, (0 < k <= length rest)%nat -> (d + depth json_loads (firstn k rest) <> 0)%Z) ->
  find_end json_loads d j rest s = (Ok None, s).
Proof.
  revert d j; induction rest as [|pm rest IH]; intros d j Hdec Hdepth; [reflexivity|].
  simpl in Hdec. apply andb_true_iff in Hdec. destruct Hdec as [Hpm Hdec].
  assert (Hlc : exists s0,
    (if m_active pm then
       match event_text (m_command pm) with
       | None => ret d
       | Some txt =>
           pd <- decode json_loads txt ;;
           ty <- key "Type" (p_Type pd) ;;
           ret (if String.eqb ty "Loop" then (d + 1)%Z
                else if String.eqb ty "EndLoop" then (d - 1)%Z else d)
       end
     else ret d) s = (Ok (d + depth_delta json_loads pm)%Z, s0) /\ s0 = s).
  { unfold depth_delta, has_type, ev_type. unfold decodes in Hpm.
    destruct (m_active pm); [|exists s; rewrite Z.add_0_r; split; reflexivity].
    destruct (event_text (m_command pm)) as [t|].
    - unfold decode. destruct (json_loads t) as [p|]; [|discriminate].
      destruct (p_Type p) as [ty|] eqn:Ety; [|discriminate].
      exists s. unfold key, bind, ret. rewrite Ety. cbv beta iota.
      destruct (String.eqb ty "Loop"); [split; reflexivity|].
      destruct (String.eqb ty "EndLoop"); [split; reflexivity|].
      rewrite Z.add_0_r; split; reflexivity.
    - exists s; rewrite Z.add_0_r; split; reflexivity. }
  destruct Hlc as [s0 [Hlc ->]].
  cbn [find_end]. rewrite (bind_ok _ _ s _ s Hlc).
  assert (H1 : (d + depth_delta json_loads pm)%Z <> 0%Z).
  { specialize (Hdepth 1%nat). simpl in Hdepth. rewrite Z.add_0_r in Hdepth.
    apply Hdepth; simpl; lia. }
  rewrite (proj2 (Z.eqb_neq _ _) H1).
  apply IH; [exact Hdec|].
  intros k Hk. specialize (Hdepth (S k)). simpl in Hdepth.
  rewrite Z.add_assoc in Hdepth. apply Hdepth. simpl; lia.
Qed.

(** C5 (amended): a [Loop] event with no matching [EndLoop] after it is
    skipped: the main scan goes on with the next macro, so the macros after
    the unmatched Loop run as the ordinary continuation of the pass, not as
    a loop body. *)
Theorem unmatched_loop_skipped rec wf ms lc af bf ba i m rest s :
  skipn i ms = m :: rest ->
  has_type json_loads "Loop" m = true ->
  forallb (decodes json_loads) rest = true ->
  (forall k, (0 < k <= length rest)%nat -> (1 + depth json_loads (firstn k rest) <> 0)%Z) ->
  scan rec wf ms lc af bf ba i (m :: rest) s = scan rec wf ms lc af bf ba (S i) rest s.
Proof.
  intros Hsk Hloop Hdec Hdepth.
  assert (Hrest : skipn (S i) ms = rest).
  { replace (S i) with (1 + i)%nat by lia. rewrite <- skipn_skipn, Hsk. reflexivity. }
  assert (Hstep : step rec wf ms lc af bf ba i m s = (Ok FNext, s)).
  { unfold step. unfold has_type, ev_type in Hloop.
    destruct (event_text (m_command m)) as [t|]; [|discriminate].
    unfold decode. destruct (json_loads t) as [p|]; [|discriminate].
    destruct (p_Type p) as [ty|] eqn:Ety; [|discriminate].
    apply String.eqb_eq in Hloop; subst ty.
    rewrite (bind_ok (ret p) _ s p s) by reflexivity.
    rewrite (bind_ok (key "Type" (p_Type p)) _ s "Loop" s) by (rewrite Ety; reflexivity).
    cbn [String.eqb Ascii.eqb Bool.eqb].
    rewrite Hrest.
    rewrite (bind_ok (find_end json_loads 1 (S i) rest) _ s None s)
      by (apply find_end_unmatched; assumption).
    reflexivity. }
  cbn [scan]. rewrite (bind_ok _ _ s FNext s Hstep). reflexivity.
Qed.

(** ** Flat loop bodies *)

Lemma prescan_not_rc ms i rest s :
  forallb (not_rc json_loads) rest = true -> prescan ms i rest s = (Ok tt, s).
Proof.
  revert i; induction rest as [|m rest IH]; intros i H; [reflexivity|].
  simpl in H; apply andb_true_iff in H; destruct H as [Hm H].
  rewrite prescan_skip by exact Hm. apply IH, H.
Qed.

Lemma flat_not_rc m : flat json_loads m = true -> not_rc json_loads m = true.
Proof.
  unfold flat, not_rc. intros H.
  destruct (decodes json_loads m), (has_type json_loads "Render Complete" m);
    simpl in *; rewrite ?andb_false_r in H; auto.
Qed.

Lemma has_type_decodes ty m : has_type json_loads ty m = true -> decodes json_loads m = true.
Proof.
  unfold has_type, ev_type, decodes.
  destruct (event_text (m_command m)); [|discriminate].
  destruct (json_loads s); [|discriminate].
  destruct (p_Type p); [reflexivity | discriminate].
Qed.

Lemma has_type_other ty ty' m :
  has_type json_loads ty m = true -> ty <> ty' -> has_type json_loads ty' m = false.
Proof.
  unfold has_type. destruct (ev_type json_loads m) as [t|]; [|discriminate].
  intros H Hne. apply String.eqb_eq in H; subst. apply String.eqb_neq, Hne.
Qed.

Lemma filter_active_id l : forallb m_active l = true -> filter m_active l = l.
Proof.
  induction l as [|m l IH]; simpl; [reflexivity|].
  intros H; apply andb_true_iff in H; destruct H as [-> H]; rewrite IH by exact H; reflexivity.
Qed.

Lemma filter_active_all ms : forallb m_active (filter m_active ms) = true.
Proof.
  apply forallb_forall. intros x Hx. apply filter_In in Hx. apply Hx.
Qed.

(** On a macro that is none of the loop, timer or render events, the main
    scan does not look at the loop state, the macro list or the position. *)
Lemma step_flat rec wf ms lc af bf i rec' wf' ms' lc' af' bf' i' ba m :
  flat json_loads m = true ->
  step rec wf ms lc af bf ba i m = step rec' wf' ms' lc' af' bf' ba i' m.
Proof.
  unfold flat, decodes, has_type, ev_type. intros H. unfold step.
  destruct (event_text (m_command m)) as [t|]; [|reflexivity].
  unfold decode. destruct (json_loads t) as [p|]; [|discriminate].
  rewrite !bind_ret_l. cbv beta.
  destruct (p_Type p) as [ty|]; [|discriminate]. unfold key.
  rewrite !bind_ret_l. cbv beta.
  destruct (String.eqb ty "Loop"), (String.eqb ty "EndLoop"), (String.eqb ty "Timer"),
    (String.eqb ty "Render Complete"); simpl in H; try discriminate; reflexivity.
Qed.

Lemma scan_flat rec wf ms lc af bf rec' wf' ms' lc' af' bf' ba l : forall i i' s,
  forallb (flat json_loads) l = true ->
  scan rec wf ms lc af bf ba i l s = scan rec' wf' ms' lc' af' bf' ba i' l s.
Proof.
  induction l as [|m l IH]; intros i i' s H; [reflexivity|].
  simpl in H; apply andb_true_iff in H; destruct H as [Hm H].
  cbn [scan].
  rewrite (step_flat rec wf ms lc af bf i rec' wf' ms' lc' af' bf' i' ba m Hm).
  unfold bind.
  destruct (step rec' wf' ms' lc' af' bf' ba i' m s) as [[[|v]|e|] s']; try reflexivity.
  apply IH, H.
Qed.

Lemma plain_post ba m : Post (plain exec_cmd action ba m) (fun f => f <> FReturn None).
Proof.
  unfold plain. apply bind_post. intros [e|]; apply ret_post; discriminate.
Qed.

Ltac post_flow :=
  repeat match goal with
         | |- forall _, _ => intro
         | |- Post (bind _ _) _ => apply bind_post
         | |- Post (if ?b then _ else _) _ => destruct b
         | |- Post (match ?x with _ => _ end) _ => destruct x
         | |- Post (ret _) _ => apply ret_post; discriminate
         | |- Post (raise _) _ => apply raise_post
         | |- Post (plain _ _ _ _) _ => apply plain_post
         end.

(** A flat macro never ends the pass with a bare [return]. *)
Lemma step_flat_post rec wf ms lc af bf ba i m :
  flat json_loads m = true ->
  Post (step rec wf ms lc af bf ba i m) (fun f => f <> FReturn None).
Proof.
  unfold flat, decodes, has_type, ev_type. intros H. unfold step.
  destruct (event_text (m_command m)) as [t|]; [|apply plain_post].
  unfold decode. destruct (json_loads t) as [p|]; [|discriminate].
  rewrite !bind_ret_l. cbv beta.
  destruct (p_Type p) as [ty|]; [|discriminate]. unfold key.
  rewrite !bind_ret_l. cbv beta zeta.
  destruct (String.eqb ty "Loop"), (String.eqb ty "EndLoop"), (String.eqb ty "Timer"),
    (String.eqb ty "Render Complete"); simpl in H; try discriminate; post_flow.
Qed.

Lemma scan_flat_post rec wf ms lc af bf ba l : forall i,
  forallb (flat json_loads) l = true ->
  Post (scan rec wf ms lc af bf ba i l) (fun f => f <> FReturn None).
Proof.
  induction l as [|m l IH]; intros i H; [apply ret_post; discriminate|].
  simpl in H; apply andb_true_iff in H; destruct H as [Hm H].
  cbn [scan]. apply (bind_post2 _ _ _ _ (step_flat_post rec wf ms lc af bf ba i m Hm)).
  intros [|v] Hv; [apply IH, H|]. apply ret_post, Hv.
Qed.

(** A call of [play] does not look at the caller's [area_type] and gives
    it back. *)
Definition frame_inv {A} (m : M A) : Prop :=
  forall v s, m (set_area_type v s) = let '(r, s') := m s in (r, set_area_type v s').

Lemma play_S f X lc af bf :
  play (S f) X lc af bf = in_frame (play_pass (play f) f X lc af bf).
Proof. reflexivity. Qed.

Lemma play_frame_inv f X lc af bf : frame_inv (play f X lc af bf).
Proof.
  intros v s. destruct f as [|f]; [reflexivity|]. cbn [play]. unfold in_frame.
  change (set_area_type None (set_area_type v s)) with (set_area_type None s).
  destruct (play_pass (play f) f X lc af bf (set_area_type None s)); reflexivity.
Qed.

Lemma repeat_then_frame_inv n body k :
  frame_inv body -> frame_inv k -> frame_inv (repeat_then n body k).
Proof.
  intros Hb Hk. induction n as [|n IH]; intros v s; cbn [repeat_then]; [apply Hk|].
  unfold bind. rewrite Hb.
  destruct (body s) as [[[e|]|e|] s1]; try reflexivity. apply IH.
Qed.

(** [play] on a list of active flat macros: one pass of the main scan,
    then the [looping_count] bookkeeping. *)
Lemma play_flat_unfold f body lc af bf s :
  forallb (flat json_loads) body = true -> forallb m_active body = true ->
  play (S f) body lc af bf s =
  let '(r, s') :=
    match scan (play f) f body lc af bf (w_area (st_world s)) 0 body (set_area_type None s) with
    | (Ok (FReturn v), s') => (Ok v, s')
    | (Ok FNext, s') =>
        (if (0 <? lc - 1)%Z then
           play f (match bf with None => body | Some b => b end) (lc - 1) af None
         else if (lc - 1 =? 0)%Z then
           match af with
           | Some after => play f after (-1) None None
           | None => raise (mkExc "TypeError" "'NoneType' object is not iterable")
           end
         else ret None) s'
    | (Raise e, s') => (Raise e, s')
    | (Stuck, s') => (Stuck, s')
    end in (r, set_area_type (st_area_type s) s').
Proof.
  intros Hfl Hact. cbn [play]. unfold in_frame, play_pass; cbv zeta.
  rewrite (filter_active_id body Hact).
  rewrite (bind_ok _ _ (set_area_type None s) tt (set_area_type None s)).
  2:{ apply prescan_not_rc. apply forallb_forall. intros x Hx.
      apply flat_not_rc. apply (proj1 (forallb_forall _ _) Hfl x Hx). }
  rewrite (bind_ok (gets _) _ (set_area_type None s) (w_area (st_world s)) (set_area_type None s))
    by reflexivity.
  unfold bind at 1.
  destruct (scan (play f) f body lc af bf (w_area (st_world s)) 0 body (set_area_type None s))
    as [[[|v]|e|] s']; reflexivity.
Qed.

Lemma play_fresh_flat f body s :
  forallb (flat json_loads) body = true -> forallb m_active body = true ->
  play (S f) body (-1) None None s =
  match scan (play f) f body (-1) None None (w_area (st_world s)) 0 body (set_area_type None s) with
  | (Ok (FReturn v), s') => (Ok v, set_area_type (st_area_type s) s')
  | (Ok FNext, s') => (Ok None, set_area_type (st_area_type s) s')
  | (Raise e, s') => (Raise e, set_area_type (st_area_type s) s')
  | (Stuck, s') => (Stuck, set_area_type (st_area_type s) s')
  end.
Proof.
  intros Hfl Hact. rewrite play_flat_unfold by assumption.
  destruct (scan _ _ _ _ _ _ _ _ _ _) as [[[|v]|e|] s']; reflexivity.
Qed.

(** The restarts of a counted loop with [looping_count = n + 1] run the
    body [n + 1] times, as long as no pass returns an error, then the
    macros after the loop. *)
Lemma counted_body g body after n : forall f s,
  forallb (flat json_loads) body = true -> forallb m_active body = true ->
  (n <= f)%nat ->
  play (S f) body (Z.of_nat (S n)) (Some after) None s =
  repeat_then (S n) (play (S g) body (-1) None None) (play (f - n) after (-1) None None) s.
Proof.
  induction n as [|n IH]; intros f s Hfl Hact Hn;
    rewrite play_flat_unfold by assumption; cbn [repeat_then]; unfold bind at 1;
    rewrite play_fresh_flat by assumption;
    match goal with
    | |- context [scan (play f) f body ?lc (Some after) None ?ba 0 body ?s0] =>
        rewrite (scan_flat (play f) f body lc (Some after) None
                   (play g) g body (-1) None None ba body 0 0 s0 Hfl);
        pose proof (scan_flat_post (play g) g body (-1) None None ba body 0 Hfl s0)
          as Hpost
    end;
    destruct (scan _ _ _ _ _ _ _ _ _ _) as [[[|v]|e|] s']; try reflexivity;
    try (destruct v as [e|]; [reflexivity | simpl in Hpost; congruence]).
  - replace (0 <? Z.of_nat 1 - 1)%Z with false by reflexivity.
    replace (Z.of_nat 1 - 1 =? 0)%Z with true by reflexivity.
    rewrite Nat.sub_0_r. cbv beta iota. cbn [repeat_then].
    rewrite play_frame_inv. destruct (play f after (-1) None None s'); reflexivity.
  - destruct f as [|f]; [lia|].
    replace (0 <? Z.of_nat (S (S n)) - 1)%Z with true by (symmetry; apply Z.ltb_lt; lia).
    replace (Z.of_nat (S (S n)) - 1)%Z with (Z.of_nat (S n)) by lia.
    cbv beta iota. rewrite IH by (assumption || lia).
    transitivity (repeat_then (S n) (play (S g) body (-1) None None)
                    (play (f - n) after (-1) None None) (set_area_type (st_area_type s) s'));
      [|reflexivity].
    rewrite repeat_then_frame_inv by apply play_frame_inv.
    destruct (repeat_then _ _ _ s'); reflexivity.
Qed.

Lemma scan_app rec wf ms lc af bf ba l1 l2 : forall i s,
  scan rec wf ms lc af bf ba i (l1 ++ l2) s =
  match scan rec wf ms lc af bf ba i l1 s with
  | (Ok FNext, s') => scan rec wf ms lc af bf ba (i + length l1) l2 s'
  | r => r
  end.
Proof.
  induction l1 as [|m l1 IH]; intros i s; simpl app.
  - rewrite Nat.add_0_r. reflexivity.
  - cbn [scan]. unfold bind.
    destruct (step rec wf ms lc af bf ba i m s) as [[[|v]|e|] s1]; try reflexivity.
    rewrite IH. replace (i + length (m :: l1))%nat with (S i + length l1)%nat by (simpl; lia).
    destruct (scan rec wf ms lc af bf ba (S i) l1 s1) as [[[|v]|e|] s2]; reflexivity.
Qed.

Lemma find_end_cons d j pm rest s :
  decodes json_loads pm = true ->
  find_end json_loads d j (pm :: rest) s =
  (if (d + depth_delta json_loads pm =? 0)%Z then (Ok (Some j), s)
   else find_end json_loads (d + depth_delta json_loads pm) (S j) rest s).
Proof.
  intros Hpm.
  assert (Hlc : exists s0,
    (if m_active pm then
       match event_text (m_command pm) with
       | None => ret d
       | Some txt =>
           pd <- decode json_loads txt ;;
           ty <- key "Type" (p_Type pd) ;;
           ret (if String.eqb ty "Loop" then (d + 1)%Z
                else if String.eqb ty "EndLoop" then (d - 1)%Z else d)
       end
     else ret d) s = (Ok (d + depth_delta json_loads pm)%Z, s0) /\ s0 = s).
  { unfold depth_delta, has_type, ev_type. unfold decodes in Hpm.
    destruct (m_active pm); [|exists s; rewrite Z.add_0_r; split; reflexivity].
    destruct (event_text (m_command pm)) as [t|].
    - unfold decode. destruct (json_loads t) as [p|]; [|discriminate].
      destruct (p_Type p) as [ty|] eqn:Ety; [|discriminate].
      exists s. unfold key, bind, ret. rewrite Ety. cbv beta iota.
      destruct (String.eqb ty "Loop"); [split; reflexivity|].
      destruct (String.eqb ty "EndLoop"); [split; reflexivity|].
      rewrite Z.add_0_r; split; reflexivity.
    - exists s; rewrite Z.add_0_r; split; reflexivity. }
  destruct Hlc as [s0 [Hlc ->]].
  cbn [find_end]. rewrite (bind_ok _ _ s _ s Hlc).
  destruct (d + depth_delta json_loads pm =? 0)%Z; reflexivity.
Qed.

Lemma find_end_flat body el rest j s :
  forallb (flat json_loads) body = true -> forallb m_active body = true ->
  m_active el = true -> has_type json_loads "EndLoop" el = true ->
  find_end json_loads 1 j (body ++ el :: rest)%list s = (Ok (Some (j + length body)%nat), s).
Proof.
  revert j; induction body as [|m body IH]; intros j Hfl Hact Hel Hty; simpl app.
  - rewrite find_end_cons by (apply (has_type_decodes "EndLoop"), Hty).
    unfold depth_delta. rewrite Hel, Hty, (has_type_other "EndLoop" "Loop") by
      (assumption || discriminate).
    simpl. rewrite Nat.add_0_r. reflexivity.
  - simpl in Hfl, Hact. apply andb_true_iff in Hfl, Hact.
    destruct Hfl as [Hm Hfl], Hact as [Ham Hact].
    rewrite find_end_cons.
    2:{ unfold flat in Hm. destruct (decodes json_loads m); [reflexivity|discriminate]. }
    assert (Hd : depth_delta json_loads m = 0%Z).
    { unfold depth_delta, flat in *. rewrite Ham.
      destruct (has_type json_loads "Loop" m), (has_type json_loads "EndLoop" m);
        simpl in Hm; rewrite ?andb_false_r in Hm; try discriminate; reflexivity. }
    rewrite Hd. simpl (1 + 0 =? 0)%Z. cbv iota.
    rewrite IH by assumption. simpl length. rewrite Nat.add_succ_r. reflexivity.
Qed.

Lemma firstn_app_length {A} (l1 l2 : list A) : firstn (length l1) (l1 ++ l2) = l1.
Proof. induction l1 as [|x l1 IH]; simpl; [reflexivity | rewrite IH; reflexivity]. Qed.

Lemma skipn_app_length {A} (l1 l2 : list A) x : skipn (S (length l1)) (l1 ++ x :: l2) = l2.
Proof. induction l1 as [|y l1 IH]; simpl; [reflexivity | exact IH]. Qed.

(** At a counted loop, the main scan hands the body over to [play] with
    [looping_count = RepeatCount] and the macros after the loop, and the
    pass returns what that call returns. *)
Lemma counted_loop_step f ms pre lp body el after N ba i s :
  ms = (pre ++ lp :: body ++ el :: after)%list -> i = length pre ->
  counted_loop json_loads N lp ->
  has_type json_loads "EndLoop" el = true ->
  forallb (flat json_loads) body = true -> forallb m_active body = true ->
  m_active el = true ->
  step (play f) f ms (-1) None None ba i lp s =
  bind (play f body N (Some after) None) (fun r => ret (FReturn r)) s.
Proof.
  intros Hms Hi Hlp Hel Hfl Hbact Hela.
  destruct Hlp as (t & p & Het & Hj & Hty & (st & Hst & Hpy & Hcnt) & Hrc).
  assert (Hsk : skipn (S i) ms = (body ++ el :: after)%list) by (subst; apply skipn_app_length).
  unfold step. rewrite Het. unfold decode. rewrite Hj, bind_ret_l. cbv beta.
  rewrite Hty. unfold key at 1. rewrite bind_ret_l. cbv beta.
  cbn [String.eqb Ascii.eqb Bool.eqb].
  rewrite Hsk.
  rewrite (bind_ok _ _ s (Some (S i + length body)%nat) s)
    by (apply find_end_flat; assumption).
  rewrite Hst. unfold key at 1. rewrite bind_ret_l. cbv beta.
  rewrite (proj2 (String.eqb_neq _ _) Hpy), (proj2 (String.eqb_neq _ _) Hcnt).
  rewrite Hrc. unfold key. rewrite bind_ret_l. cbv beta.
  replace (S i + length body - S i)%nat with (length body) by lia.
  rewrite firstn_app_length.
  replace (skipn (S (S i + length body)) ms) with after.
  2:{ subst. replace (S (S (length pre) + length body)) with (S (length (pre ++ lp :: body)))
        by (rewrite length_app; simpl; lia).
      replace (pre ++ lp :: body ++ el :: after)%list with ((pre ++ lp :: body) ++ el :: after)%list
        by (rewrite <- app_assoc; reflexivity).
      symmetry. apply skipn_app_length. }
  reflexivity.
Qed.

(** C2 (amended): take a fresh call whose active macros are plain commands
    and [Select Object] or [Run Script] events, then a counted [Loop]
    ([RepeatCount = N >= 1], [StatementType] neither [python] nor
    [count]), a body of such macros (no nested loop, no [Timer], no
    [Render Complete]), the matching [EndLoop], and macros with no
    [Render Complete] event.  Then [play] behaves exactly as playing the
    macros before the Loop, then, if they return no error, running the
    body [N] times directly, stopping at the first error, and then playing
    the macros after the [EndLoop]. *)
Theorem counted_loop_repeats fuel ms pre lp body el after N s :
  filter m_active ms = (pre ++ lp :: body ++ el :: after)%list ->
  forallb (flat json_loads) pre = true ->
  counted_loop json_loads N lp ->
  has_type json_loads "EndLoop" el = true ->
  forallb (flat json_loads) body = true ->
  forallb (not_rc json_loads) after = true ->
  (1 <= N)%Z -> (Z.to_nat N + 1 < fuel)%nat ->
  play fuel ms (-1) None None s =
  (r <- play fuel pre (-1) None None ;;
   match r with
   | Some e => ret (Some e)
   | None => repeat_then (Z.to_nat N) (play fuel body (-1) None None)
                         (play (fuel - Z.to_nat N - 1) after (-1) None None)
   end) s.
Proof.
  intros Hf Hpre Hlp Hel Hfl Haf HN Hfuel.
  pose proof (filter_active_all ms) as Hall. rewrite Hf in Hall.
  rewrite forallb_app in Hall. apply andb_true_iff in Hall. destruct Hall as [Hpa Hall].
  simpl in Hall. apply andb_true_iff in Hall. destruct Hall as [Hlpa Hall].
  rewrite forallb_app in Hall. apply andb_true_iff in Hall. destruct Hall as [Hbact Hall].
  simpl in Hall. apply andb_true_iff in Hall. destruct Hall as [Hela _].
  assert (Hnrc : forallb (not_rc json_loads) (pre ++ lp :: body ++ el :: after)%list = true).
  { destruct Hlp as (t & p & Het & Hj & Hty & _).
    assert (Hfnr : forall l, forallb (flat json_loads) l = true ->
                             forallb (not_rc json_loads) l = true).
    { intros l Hl. apply forallb_forall. intros x Hx. apply flat_not_rc.
      apply (proj1 (forallb_forall _ _) Hl x Hx). }
    rewrite forallb_app, (Hfnr pre Hpre). simpl. apply andb_true_iff; split.
    - unfold not_rc, has_type, ev_type, decodes. rewrite Het, Hj, Hty. reflexivity.
    - rewrite forallb_app, (Hfnr body Hfl). simpl. rewrite Haf, andb_true_r. unfold not_rc.
      rewrite (has_type_decodes _ _ Hel), (has_type_other "EndLoop") by
        (assumption || discriminate). reflexivity. }
  destruct fuel as [|f]; [lia|].
  rewrite (play_S f ms). unfold in_frame at 1, play_pass at 1; cbv zeta. rewrite Hf.
  rewrite (bind_ok _ _ (set_area_type None s) tt (set_area_type None s))
    by (apply prescan_not_rc, Hnrc).
  rewrite (bind_ok (gets _) _ (set_area_type None s) (w_area (st_world s)) (set_area_type None s))
    by reflexivity.
  unfold bind at 1. rewrite scan_app.
  rewrite (scan_flat (play f) f (pre ++ lp :: body ++ el :: after)%list (-1) None None
             (play f) f pre (-1) None None (w_area (st_world s)) pre 0 0
             (set_area_type None s) Hpre).
  unfold bind at 1. rewrite play_fresh_flat by assumption.
  pose proof (scan_flat_post (play f) f pre (-1) None None (w_area (st_world s)) pre 0 Hpre
                (set_area_type None s)) as Hpost.
  destruct (scan (play f) f pre (-1) None None (w_area (st_world s)) 0 pre (set_area_type None s))
    as [[[|v]|e|] s1]; try reflexivity;
    [| destruct v as [e|]; [reflexivity | simpl in Hpost; congruence]].
  cbn [scan]. simpl (0 + length pre)%nat. unfold bind at 1.
  rewrite (counted_loop_step f _ pre lp body el after N _ (length pre) s1 eq_refl eq_refl
             Hlp Hel Hfl Hbact Hela).
  destruct f as [|f]; [lia|].
  destruct (Z.to_nat N) as [|n] eqn:Hk; [lia|].
  replace N with (Z.of_nat (S n)) by lia.
  unfold bind.
  rewrite (counted_body (S f) body after n f s1 Hfl Hbact) by lia.
  cbv beta iota.
  rewrite repeat_then_frame_inv by apply play_frame_inv.
  replace (S (S f) - S n - 1)%nat with (f - n)%nat by lia.
  destruct (repeat_then (S n) (play (S (S f)) body (-1) None None)
              (play (f - n) after (-1) None None) s1) as [[r|e|] s2]; reflexivity.
Qed.

(** ** INDIVIDUAL execution *)

Lemma bind_inv {A B} (m : M A) (f : A -> M B) s b s2 :
  bind m f s = (Ok b, s2) -> exists a s1, m s = (Ok a, s1) /\ f a s1 = (Ok b, s2).
Proof.
  unfold bind. destruct (m s) as [[a|e|] s1]; intros H; [eauto | discriminate | discriminate].
Qed.

Lemma ok_log {A} (m : M A) s a s' :
  Preserves trace_of m -> m s = (Ok a, s') -> st_log s' = st_log s.
Proof.
  intros Hp H. apply log_of_trace. specialize (Hp s). rewrite H in Hp. exact Hp.
Qed.

Lemma suppress_pres m : Preserves trace_of m -> Preserves trace_of (suppress_reference_error m).
Proof.
  intros Hm. unfold suppress_reference_error. apply try_pres; [exact Hm|].
  intros e. destruct (String.eqb _ _); [apply ret_pres | apply raise_pres].
Qed.

Lemma mem_true x l : In x l -> mem x l = true.
Proof.
  intros H. apply existsb_exists. exists x. split; [exact H | apply String.eqb_refl].
Qed.

Lemma mem_in x l : mem x l = true -> In x l.
Proof.
  intros H. apply existsb_exists in H. destruct H as [y [Hy E]].
  apply String.eqb_eq in E; subst; exact Hy.
Qed.

Lemma exec_in_log ctx mid cmd s s' :
  exec_in ctx mid cmd s = (Ok tt, s') -> st_log s' = (st_log s ++ [mkInv mid cmd ctx])%list.
Proof.
  unfold exec_in, bind, modify, gets, update_world. simpl.
  destruct (exec_cmd ctx _ cmd) as [w' [e|]]; simpl; intros H; inversion H; reflexivity.
Qed.

Lemma filter_nil {A} (P : A -> bool) l : (forall y, In y l -> P y = false) -> filter P l = [].
Proof.
  induction l as [|x l IH]; intros H; [reflexivity|]. simpl.
  rewrite (H x (or_introl eq_refl)). apply IH. intros y Hy; apply H; right; exact Hy.
Qed.

(** [for object in old_selected_objects: object.select_set(False)] over
    objects of the view layer takes exactly them out of the selection. *)
Lemma deselect_in l s :
  (forall o, In o l -> mem o (w_objects (st_world s)) = true /\ mem o (w_layer (st_world s)) = true) ->
  exists s1, for_each l (select_set false) s = (Ok tt, s1) /\
    st_log s1 = st_log s /\
    w_objects (st_world s1) = w_objects (st_world s) /\
    w_layer (st_world s1) = w_layer (st_world s) /\
    (forall x, In x (w_selected (st_world s1)) <-> In x (w_selected (st_world s)) /\ ~ In x l).
Proof.
  revert s; induction l as [|o l IH]; intros s Hl.
  - exists s. repeat split; try reflexivity; try tauto.
  - cbn [for_each]. destruct (Hl o (or_introl eq_refl)) as [Ho Hly].
    set (s0 := set_world (with_selected (filter (fun x => negb (String.eqb x o))
                                           (w_selected (st_world s))) (st_world s)) s).
    assert (H0 : select_set false o s = (Ok tt, s0)).
    { unfold select_set, bind, gets. rewrite Ho, Hly. reflexivity. }
    rewrite (bind_ok _ _ s tt s0 H0).
    destruct (IH s0) as [s2 [H2 [L2 [O2 [Y2 S2]]]]].
    { intros x Hx. exact (Hl x (or_intror Hx)). }
    exists s2. split; [exact H2|]. split; [exact L2|]. split; [exact O2|]. split; [exact Y2|].
    intros x. rewrite S2. unfold s0; simpl. rewrite filter_In.
    destruct (String.eqb x o) eqn:Ex.
    + apply String.eqb_eq in Ex; subst. simpl. split; [intros [[_ F] _]; discriminate|].
      intros [_ F]; exfalso; apply F; left; reflexivity.
    + apply String.eqb_neq in Ex. simpl. split.
      * intros [[Hx _] Hn]. split; [exact Hx|]. intros [E|E]; [congruence | exact (Hn E)].
      * intros [Hx Hn]. split; [split; [exact Hx | reflexivity]|]. intros E; apply Hn; right; exact E.
Qed.

(** C7: in INDIVIDUAL mode with a nonempty selection, the first
    assignment [context.selectable_objects = [object]] raises
    [AttributeError] (context members are read-only), before any
    invocation: nothing is logged, and the selection is left holding only
    the first object, the captured selection is not restored. *)
Theorem individual_context_read_only ctx mid cmd o rest s :
  selected_objects (st_world s) = o :: rest ->
  exists s',
    execute_individually ctx mid cmd s =
      (Raise (mkExc "AttributeError"
                ("bpy_struct: Context property " ++ dq ++ "selectable_objects" ++ dq
                 ++ " is read-only")), s') /\
    st_log s' = st_log s /\
    selected_objects (st_world s') = [o].
Proof.
  intros Hsel.
  assert (Hin : forall x, In x (o :: rest) ->
            mem x (w_objects (st_world s)) = true /\ mem x (w_layer (st_world s)) = true).
  { intros x Hx. rewrite <- Hsel in Hx. unfold selected_objects in Hx.
    apply filter_In in Hx. destruct Hx as [_ Hx]. apply andb_true_iff in Hx. exact Hx. }
  destruct (deselect_in (o :: rest) s Hin) as [s1 [H1 [L1 [O1 [Y1 S1]]]]].
  destruct (Hin o (or_introl eq_refl)) as [Ho Hly].
  assert (Hns : mem o (w_selected (st_world s1)) = false).
  { destruct (mem o (w_selected (st_world s1))) eqn:E; [|reflexivity].
    apply mem_in, S1 in E. exfalso. apply (proj2 E). left; reflexivity. }
  set (s2 := set_world (with_selected (w_selected (st_world s1) ++ [o]) (st_world s1)) s1).
  assert (H2 : select_set true o s1 = (Ok tt, s2)).
  { unfold select_set, bind, gets. rewrite O1, Y1, Ho, Hly, Hns. reflexivity. }
  exists s2. split; [|split].
  - unfold execute_individually.
    rewrite (bind_ok (gets _) _ s (o :: rest) s) by (unfold gets; rewrite Hsel; reflexivity).
    rewrite (bind_ok _ _ s tt s1 H1).
    apply bind_raise. cbn [for_each]. apply bind_raise.
    rewrite (bind_ok _ _ s1 tt s2 H2). reflexivity.
  - exact L1.
  - unfold s2, selected_objects; simpl. rewrite filter_app.
    rewrite filter_nil.
    + simpl. rewrite O1, Y1, Ho, Hly. reflexivity.
    + intros y Hy. destruct (mem y (w_objects (st_world s1)) && mem y (w_layer (st_world s1)))%bool
        eqn:E; [|reflexivity].
      exfalso. apply S1 in Hy. destruct Hy as [Hy Hn]. apply Hn. rewrite <- Hsel.
      unfold selected_objects. apply filter_In. rewrite <- O1, <- Y1. split; assumption.
Qed.

End Theorems.

(** * Concrete runs *)

Module Runs.
Import Fx Fx2.

(** C2 (counterexample): a counted loop nested in the body of a counted
    loop.  [Loop(2) [Loop(1) [a] EndLoop] EndLoop b]: the inner loop hands
    the rest of the outer body to a tail call, the outer count is lost, [a]
    runs once and [b] never runs; running the outer body twice directly and
    then [b] gives [a; a; b]. *)
Lemma c2_nested_counted_loop :
  let ms := [ev "L" "LOOP2"; ev "L2" "LOOP1"; cmd "a"; ev "E" "END"; ev "E2" "END"; cmd "b"] in
  let act := group_action ms in
  log_ids (snd (run exec_all_ok act ms st0)) = ["a"] /\
  log_ids (snd (repeat_then 2
     (play json exec_all_ok eval_false no_script act "global_actions" 40
           [ev "L2" "LOOP1"; cmd "a"; ev "E" "END"] (-1) None None)
     (play json exec_all_ok eval_false no_script act "global_actions" 40
           [cmd "b"] (-1) None None) st0)) = ["a"; "a"; "b"].
Proof. vm_compute. split; reflexivity. Qed.

(** C3: a [Timer] at index 0 of a pass resumed with
    [macros_before_timer = [m0]] over [[Timer; b; c; d]] registers the
    continuation on [[b; c; d]] with [[m0; Timer; b; c]] as its
    [macros_before_timer] ([macros[:(-1-i)]] is [macros[:-1]]), where
    [macros_before_timer + activeMacros[:0]] is [[m0]]. *)
Lemma c3_timer_before_slice :
  let ms := [ev "T" "TIMER"; cmd "b"; cmd "c"; cmd "d"] in
  let r := play json exec_all_ok eval_false no_script (group_action ms) "global_actions"
                5 ms (-1) None (Some [cmd "m0"]) st0 in
  fst r = Ok None /\
  map (fun k => (map m_id (k_macros k), option_map (map m_id) (k_before k))) (st_timers (snd r))
    = [(["b"; "c"; "d"], Some ["m0"; "T"; "b"; "c"])] /\
  st_log (snd r) = [] /\
  ["m0"; "T"; "b"; "c"] <> map m_id ([cmd "m0"] ++ firstn 0 ms)%list.
Proof. vm_compute. repeat split; try reflexivity. discriminate. Qed.

(** C4: [Loop(python, "False")] over [a], then [b].  The predicate is false
    at once, the branch falls through to the plain-command block and
    executes the Loop macro's own command [ar.event:...]; when that raises,
    [play] returns the error and alerts the Loop macro; when it does not,
    the body [a] runs once in the main scan. *)
Lemma c4_python_loop_false :
  let ms := [ev "L" "PYLOOP"; cmd "a"; ev "E" "END"; cmd "b"] in
  let r1 := run exec_ok (group_action ms) ms st0 in
  let r2 := run exec_all_ok (group_action ms) ms st0 in
  fst r1 = Ok (Some (ErrExc (mkExc "NameError" "name 'ar' is not defined"))) /\
  log_ids (snd r1) = ["L"] /\ st_action_alert (snd r1) = true /\ st_alerts (snd r1) = ["L"] /\
  fst r2 = Ok None /\ log_ids (snd r2) = ["L"; "a"; "b"].
Proof. vm_compute. repeat split; reflexivity. Qed.

(** C5 (counterexample): an unmatched counted [Loop(3)] before [a].  The
    Loop is skipped and [a] runs once as the ordinary continuation; taking
    [a] as the loop body (as the matched [Loop(3) a EndLoop] does) runs it
    three times. *)
Lemma c5_unmatched_loop_skipped :
  let ms := [ev "L" "LOOP3"; cmd "a"] in
  let ms' := [ev "L" "LOOP3"; cmd "a"; ev "E" "END"] in
  log_ids (snd (run exec_all_ok (group_action ms) ms st0)) = ["a"] /\
  log_ids (snd (run exec_all_ok (group_action ms') ms' st0)) = ["a"; "a"; "a"].
Proof. vm_compute. split; reflexivity. Qed.

(** C8: draining the queue.  An entry whose action and macro exist raises
    [NameError] (the slice reads the unbound name [start]); an entry whose
    action was deleted raises [KeyError]; an entry whose macro is missing is
    skipped. *)
Lemma c8_drain_entries :
  fst (execute_render_complete drain_actions
         (st_queue [("global_actions", "act", "b")])) =
    Raise (mkExc "NameError" "name 'start' is not defined") /\
  fst (execute_render_complete drain_actions
         (st_queue [("global_actions", "gone", "b")])) =
    Raise (mkExc "KeyError" "bpy_prop_collection[key]: key gone not found") /\
  execute_render_complete drain_actions (st_queue [("global_actions", "act", "zz")]) =
    (Ok tt, st_queue []).
Proof. vm_compute. repeat split; reflexivity. Qed.

(** C9: an area whose regions are [[WINDOW 1; HEADER 2; WINDOW 3]]: the
    command runs with region 1, the first WINDOW region, not region 3, the
    last one. *)
Lemma c9_region_first_window :
  let ms := [cmd "a"] in
  map (fun i => c_region (inv_ctx i))
      (st_log (snd (run exec_all_ok (group_action ms) ms (mkSt world_area false [] [] [] [] None))))
    = [Some w_region_win1] /\
  last (area_regions view_area) w_region_header = w_region_win3 /\
  w_region_win1 <> w_region_win3.
Proof. vm_compute. repeat split; try reflexivity. discriminate. Qed.

(** C10 (counterexample): [[Render Complete; Render Complete]]: the last
    active macro is a Render Complete event, yet the pre-scan stops at the
    first one, registers the second one's id and [play] returns [None]. *)
Lemma c10_two_render_complete :
  let ms := [ev "R" "RC"; ev "R2" "RC"] in
  let r := run exec_all_ok (group_action ms) ms st0 in
  fst r = Ok None /\ st_rc (snd r) = [("global_actions", "act", "R2")].
Proof. vm_compute. split; reflexivity. Qed.

(** C1 (counterexample): [[a; b]] in GROUP mode with a command that
    raises: [a] is executed, [play] returns the error and [b] is never
    executed. *)
Lemma c1_failure_stops_pass :
  fst (run exec_fail (group_action [cmd "a"; cmd "b"]) [cmd "a"; cmd "b"] st0) =
    Ok (Some (ErrExc (mkExc "RuntimeError" "operator failed"))) /\
  log_ids (snd (run exec_fail (group_action [cmd "a"; cmd "b"]) [cmd "a"; cmd "b"] st0)) = ["a"].
Proof. vm_compute. split; reflexivity. Qed.

(** Witness of [play_plain_sequence] on [[a; b]] in GROUP mode. *)
Lemma c1_plain_witness :
  a_execution_mode (group_action [cmd "a"; cmd "b"]) = "GROUP" /\
  Forall plain_cmd [cmd "a"; cmd "b"] /\
  (play json exec_all_ok eval_false no_script (group_action [cmd "a"; cmd "b"])
        "global_actions" 3 [cmd "a"; cmd "b"] (-1) None None st0 =
   in_frame (run_in_order exec_all_ok (group_action [cmd "a"; cmd "b"])
               (w_area (st_world st0)) (filter m_active [cmd "a"; cmd "b"])) st0 /\
   exists L k,
    st_log (snd (play json exec_all_ok eval_false no_script (group_action [cmd "a"; cmd "b"])
              "global_actions" 3 [cmd "a"; cmd "b"] (-1) None None st0)) = (st_log st0 ++ L)%list /\
    map inv_macro L = map m_id (firstn k (filter m_active [cmd "a"; cmd "b"])) /\
    (fst (play json exec_all_ok eval_false no_script (group_action [cmd "a"; cmd "b"])
              "global_actions" 3 [cmd "a"; cmd "b"] (-1) None None st0) = Ok None ->
     map inv_macro L = map m_id (filter m_active [cmd "a"; cmd "b"]))).
Proof.
  split; [reflexivity|]. split; [repeat constructor|].
  apply (play_plain_sequence json exec_all_ok eval_false no_script
           (group_action [cmd "a"; cmd "b"]) "global_actions" 2 [cmd "a"; cmd "b"] st0);
    [reflexivity | repeat constructor].
Defined.

(** Witness of [counted_loop_repeats] on [p Loop(2) a EndLoop b]. *)
Lemma c2_counted_witness :
  counted_loop json 2 (ev "L" "LOOP2") /\
  play json exec_all_ok eval_false no_script (group_action []) "global_actions" 10
       [cmd "p"; ev "L" "LOOP2"; cmd "a"; ev "E" "END"; cmd "b"] (-1) None None st0 =
  (r <- play json exec_all_ok eval_false no_script (group_action []) "global_actions" 10
             [cmd "p"] (-1) None None ;;
   match r with
   | Some e => ret (Some e)
   | None =>
       repeat_then (Z.to_nat 2)
         (play json exec_all_ok eval_false no_script (group_action []) "global_actions" 10
               [cmd "a"] (-1) None None)
         (play json exec_all_ok eval_false no_script (group_action []) "global_actions"
               (10 - Z.to_nat 2 - 1) [cmd "b"] (-1) None None)
   end) st0.
Proof.
  assert (Hc : counted_loop json 2 (ev "L" "LOOP2")).
  { exists "LOOP2", (counted 2). repeat split; try reflexivity.
    exists ""; repeat split; discriminate. }
  split; [exact Hc|].
  apply (counted_loop_repeats json exec_all_ok eval_false no_script (group_action [])
           "global_actions" 10 [cmd "p"; ev "L" "LOOP2"; cmd "a"; ev "E" "END"; cmd "b"]
           [cmd "p"] (ev "L" "LOOP2") [cmd "a"] (ev "E" "END") [cmd "b"] 2 st0);
    [reflexivity | reflexivity | exact Hc | reflexivity | reflexivity | reflexivity | lia | simpl; lia].
Defined.

(** Witness of [unmatched_loop_skipped] on [Loop(3) a] with no EndLoop. *)
Lemma c5_unmatched_witness :
  has_type json "Loop" (ev "L" "LOOP3") = true /\
  scan json exec_all_ok eval_false no_script (group_action []) "global_actions"
       (fun _ _ _ _ => ret None) 0 [ev "L" "LOOP3"; cmd "a"] (-1) None None None
       0 [ev "L" "LOOP3"; cmd "a"] st0 =
  scan json exec_all_ok eval_false no_script (group_action []) "global_actions"
       (fun _ _ _ _ => ret None) 0 [ev "L" "LOOP3"; cmd "a"] (-1) None None None
       1 [cmd "a"] st0.
Proof.
  split; [reflexivity|].
  apply (unmatched_loop_skipped json exec_all_ok eval_false no_script (group_action [])
           "global_actions" (fun _ _ _ _ => ret None) 0 [ev "L" "LOOP3"; cmd "a"]
           (-1) None None None 0 (ev "L" "LOOP3") [cmd "a"] st0);
    [reflexivity | reflexivity | reflexivity |].
  intros k Hk. simpl in Hk. destruct k as [|[|k]]; [lia | simpl; discriminate | lia].
Defined.



(** Witness of [individual_context_read_only] with [A] and [B] selected;
    and [play] in INDIVIDUAL mode over [[a]] there: the [AttributeError] is
    caught by the command block, [a] is alerted, nothing is executed and
    only [A] stays selected. *)
Lemma c7_read_only_witness :
  selected_objects world_ab = ["A"; "B"] /\
  (exists s',
    execute_individually exec_all_ok (mkCtx None None None None) "a" "x"
      (mkSt world_ab false [] [] [] [] None) =
      (Raise (mkExc "AttributeError"
                ("bpy_struct: Context property " ++ dq ++ "selectable_objects" ++ dq
                 ++ " is read-only")), s') /\
    st_log s' = st_log (mkSt world_ab false [] [] [] [] None) /\
    selected_objects (st_world s') = ["A"]) /\
  (let r := run exec_all_ok (individual_action [cmd "a"]) [cmd "a"]
                (mkSt world_ab false [] [] [] [] None) in
   fst r = Ok (Some (ErrExc (mkExc "AttributeError"
                ("bpy_struct: Context property " ++ dq ++ "selectable_objects" ++ dq
                 ++ " is read-only")))) /\
   st_log (snd r) = [] /\ st_alerts (snd r) = ["a"] /\
   w_selected (st_world (snd r)) = ["A"]).
Proof.
  split; [reflexivity|]. split.
  - apply (individual_context_read_only json exec_all_ok "global_actions" (mkCtx None None None None) "a" "x"
             "A" ["B"] (mkSt world_ab false [] [] [] [] None)).
    reflexivity.
  - vm_compute. repeat split; reflexivity.
Defined.

(** Witness of [render_complete_last_raises] on [[a; Render Complete]]. *)
Lemma c10_last_rc_witness :
  has_type json "Render Complete" (ev "R" "RC") = true /\
  play json exec_all_ok eval_false no_script (group_action []) "global_actions" 4
       [cmd "a"; ev "R" "RC"] (-1) None None st0 =
    (Raise (mkExc "IndexError" "list index out of range"), st0).
Proof.
  split; [reflexivity|].
  apply (render_complete_last_raises json exec_all_ok eval_false no_script (group_action [])
           "global_actions" 3 [cmd "a"; ev "R" "RC"] [cmd "a"] (ev "R" "RC") (-1) None None st0);
    reflexivity.
Defined.

End Runs.


(** * Properties of the other helpers of shared.py and categories.py *)

(** ** [check_for_duplicates] *)

Lemma of_uint_zpad (w : nat) (u : Decimal.uint) : N.of_uint (zpad w u) = N.of_uint u.
Proof.
  unfold zpad. induction (w - Decimal.nb_digits u)%nat as [|k IH]; [reflexivity|].
  exact IH.
Qed.

(** Distinct numbers are formatted differently. *)
Lemma fmt03_inj (n m : Z) : fmt03 n = fmt03 m -> n = m.
Proof.
  unfold fmt03; intros H; apply (f_equal NilEmpty.int_of_string) in H.
  destruct (n <? 0)%Z eqn:En, (m <? 0)%Z eqn:Em; rewrite !NilEmpty.isi in H;
    inversion H as [H1]; clear H;
    apply (f_equal N.of_uint) in H1; rewrite !of_uint_zpad, !DecimalN.Unsigned.of_to in H1;
    apply (f_equal Z.of_N) in H1.
  - rewrite !Zabs2N.id_abs in H1. apply Z.ltb_lt in En, Em. lia.
  - apply Z.ltb_ge in En, Em. rewrite !Z2N.id in H1 by lia. exact H1.
Qed.

Lemma string_app_inv_head (a b c : string) : (a ++ b = a ++ c)%string -> b = c.
Proof. induction a as [|x a IH]; simpl; intros H; [exact H | injection H; exact IH]. Qed.

Lemma dup_loop_some (fuel : nat) (l : list string) (base name : string) (num : Z) (r : string) :
  dup_loop fuel l base name num = Some r -> ~ In r l.
Proof.
  revert name num; induction fuel as [|fuel IH]; intros name num H; simpl in H;
    [discriminate|].
  destruct (mem name l) eqn:Em; [exact (IH _ _ H)|].
  injection H as <-. intros Hin. apply mem_true in Hin. congruence.
Qed.

Lemma dup_loop_S (fuel : nat) (l : list string) (base name : string) (num : Z) :
  dup_loop (S fuel) l base name num =
  if mem name l then dup_loop fuel l base (base ++ "." ++ fmt03 num) (num + 1) else Some name.
Proof. reflexivity. Qed.

Lemma dup_loop_none_in (fuel : nat) (l : list string) (base name : string) (num : Z) :
  dup_loop (S fuel) l base name num = None -> In name l.
Proof.
  simpl. destruct (mem name l) eqn:Em; [intros _ | discriminate].
  apply mem_in; exact Em.
Qed.

Lemma dup_loop_none (fuel : nat) (l : list string) (base name : string) (num : Z) :
  dup_loop (S fuel) l base name num = None ->
  forall k, (k < fuel)%nat -> In (base ++ "." ++ fmt03 (num + Z.of_nat k)) l.
Proof.
  revert name num; induction fuel as [|fuel IH]; intros name num H k Hk; [lia|].
  cbn [dup_loop] in H. destruct (mem name l) eqn:Em; [|discriminate].
  destruct k as [|k].
  - rewrite Z.add_0_r. exact (dup_loop_none_in _ _ _ _ _ H).
  - replace (num + Z.of_nat (S k))%Z with (num + 1 + Z.of_nat k)%Z by lia.
    apply (IH _ _ H). lia.
Qed.

Lemma dup_loop_first (fuel : nat) (l : list string) (base : string) (num : Z) (r : string) :
  dup_loop fuel l base (base ++ "." ++ fmt03 num) (num + 1) = Some r ->
  exists k, (k < fuel)%nat /\ r = (base ++ "." ++ fmt03 (num + Z.of_nat k))%string /\
    forall j, (j < k)%nat -> In (base ++ "." ++ fmt03 (num + Z.of_nat j)) l.
Proof.
  revert num; induction fuel as [|fuel IH]; intros num H; [discriminate|].
  cbn [dup_loop] in H. destruct (mem (base ++ "." ++ fmt03 num) l) eqn:Em.
  - destruct (IH (num + 1)%Z H) as (k & Hk & -> & Hj).
    exists (S k). split; [lia|]. split.
    + f_equal. f_equal. f_equal. lia.
    + intros [|j] Hjk.
      * rewrite Z.add_0_r. apply mem_in; exact Em.
      * replace (num + Z.of_nat (S j))%Z with (num + 1 + Z.of_nat j)%Z by lia.
        apply Hj; lia.
  - injection H as <-. exists 0%nat. split; [lia|]. split.
    + rewrite Z.add_0_r. reflexivity.
    + intros j Hj; lia.
Qed.

(** X1: the result is always a name missing from [check_list]; a name
    already missing is returned unchanged. *)
Theorem check_for_duplicates_fresh (check_list : list string) (name : string) (num : Z) :
  exists r, check_for_duplicates check_list name num = Some r /\ ~ In r check_list /\
    (~ In name check_list -> r = name).
Proof.
  unfold check_for_duplicates.
  destruct (dup_loop (S (S (length check_list))) check_list (base_name_of name) name num)
    as [r|] eqn:E.
  - exists r. split; [reflexivity|]. split; [exact (dup_loop_some _ _ _ _ _ _ E)|].
    intros Hn. cbn [dup_loop] in E. rewrite (mem_false _ _ Hn) in E. injection E as <-.
    reflexivity.
  - exfalso.
    pose proof (dup_loop_none _ _ _ _ _ E) as Hall.
    set (f := fun k : nat => (base_name_of name ++ "." ++ fmt03 (num + Z.of_nat k))%string).
    assert (Hnd : NoDup (map f (seq 0 (S (length check_list))))).
    { apply Finite.Injective_map_NoDup; [|apply seq_NoDup].
      intros x y Hxy. unfold f in Hxy. apply string_app_inv_head in Hxy.
      apply string_app_inv_head with (a := ".") in Hxy. apply fmt03_inj in Hxy. lia. }
    assert (Hincl : incl (map f (seq 0 (S (length check_list)))) check_list).
    { intros x Hx. apply in_map_iff in Hx. destruct Hx as (k & <- & Hk).
      apply in_seq in Hk. apply Hall. lia. }
    pose proof (NoDup_incl_length Hnd Hincl) as Hlen.
    rewrite length_map, length_seq in Hlen. lia.
Qed.

(** X2: a name already taken becomes [base_name.NNN] for the first [num + k]
    not taken, with [k <= len(check_list)]. *)
Theorem check_for_duplicates_numbered (check_list : list string) (name : string) (num : Z) :
  In name check_list ->
  exists k, (k <= length check_list)%nat /\
    check_for_duplicates check_list name num =
      Some (base_name_of name ++ "." ++ fmt03 (num + Z.of_nat k))%string /\
    forall j, (j < k)%nat -> In (base_name_of name ++ "." ++ fmt03 (num + Z.of_nat j)) check_list.
Proof.
  intros Hin.
  destruct (check_for_duplicates_fresh check_list name num) as (r & E & _ & _).
  revert E. unfold check_for_duplicates. rewrite dup_loop_S, (mem_true _ _ Hin).
  intros E. destruct (dup_loop_first _ _ _ _ _ E) as (k & Hk & -> & Hj).
  exists k. split; [lia|]. split; [exact E | exact Hj].
Qed.


(** ** [split_and_keep] *)

Lemma split_cp_nonempty (p : nat) (t : list nat) : split_cp p t <> [].
Proof.
  destruct t as [|c r]; simpl; [discriminate|].
  destruct (c =? p)%nat; [discriminate|]. destruct (split_cp p r); discriminate.
Qed.

Lemma concat_split_cp (p : nat) (t : list nat) :
  concat (split_cp p t) = filter (fun c => negb (c =? p)%nat) t.
Proof.
  induction t as [|c r IH]; [reflexivity|]. cbn [split_cp filter].
  destruct (c =? p)%nat; [exact IH|].
  destruct (split_cp p r) as [|w ws] eqn:E; [exfalso; exact (split_cp_nonempty p r E)|].
  simpl in *. rewrite IH. reflexivity.
Qed.

Lemma filter_replace_cp (s p : nat) (t : list nat) :
  filter (fun c => negb (c =? p)%nat) (replace_cp s p t) = filter (fun c => negb (c =? p)%nat) t.
Proof.
  induction t as [|c r IH]; [reflexivity|]. unfold replace_cp in *. cbn [flat_map].
  rewrite filter_app, IH.
  destruct (c =? s)%nat; simpl; [rewrite Nat.eqb_refl; simpl|];
    destruct (c =? p)%nat; reflexivity.
Qed.

Lemma filter_fold_replace (sep : list nat) (p : nat) (t : list nat) :
  filter (fun c => negb (c =? p)%nat) (fold_left (fun t s => replace_cp s p t) sep t) =
  filter (fun c => negb (c =? p)%nat) t.
Proof.
  revert t; induction sep as [|s sep IH]; intros t; [reflexivity|].
  simpl. rewrite IH. apply filter_replace_cp.
Qed.

Lemma filter_all_true {A} (f : A -> bool) (l : list A) :
  (forall x, In x l -> f x = true) -> filter f l = l.
Proof.
  induction l as [|x l IH]; intros H; [reflexivity|]. simpl.
  rewrite (H x (or_introl eq_refl)), IH; [reflexivity|]. intros y Hy; apply H; right; exact Hy.
Qed.

Lemma fold_max_bound (r : list nat) (x : nat) :
  (x <= fold_left Nat.max r x)%nat /\ (forall c, In c r -> c <= fold_left Nat.max r x)%nat /\
  In (fold_left Nat.max r x) (x :: r).
Proof.
  revert x; induction r as [|y r IH]; intros x; simpl.
  - split; [lia|]. split; [intros c []|left; reflexivity].
  - destruct (IH (Nat.max x y)) as (H1 & H2 & H3). split; [lia|]. split.
    + intros c [<-|Hc]; [lia | apply H2; exact Hc].
    + destruct H3 as [H3|H3]; [|right; right; exact H3].
      rewrite <- H3. destruct (Nat.max_spec x y) as [[_ ->]|[_ ->]]; auto.
Qed.

Lemma py_max_spec (text : list nat) (m : nat) :
  py_max text = Some m -> (forall c, In c text -> c <= m)%nat /\ In m text.
Proof.
  destruct text as [|x r]; simpl; [discriminate|]. intros E; injection E as <-.
  destruct (fold_max_bound r x) as (H1 & H2 & H3). split; [|exact H3].
  intros c [<-|Hc]; [exact H1 | apply H2; exact Hc].
Qed.


Lemma hd_replace_cp (s p : nat) (r : list nat) :
  hd_error r = Some p -> hd_error (replace_cp s p r) = Some p.
Proof.
  destruct r as [|c r]; simpl; [discriminate|]. intros E; injection E as ->.
  destruct (p =? s)%nat; reflexivity.
Qed.

Lemma followed_replace_self (s p : nat) (t : list nat) :
  s <> p -> followed p s (replace_cp s p t).
Proof.
  intros Hsp; induction t as [|c r IH]; [exact I|]. unfold replace_cp in *; cbn [flat_map].
  destruct (c =? s)%nat eqn:E; simpl.
  - split; [intros _; reflexivity|]. split; [intros ->; congruence | exact IH].
  - split; [intros ->; rewrite Nat.eqb_refl in E; discriminate | exact IH].
Qed.

Lemma followed_replace_other (s s' p : nat) (t : list nat) :
  s <> p -> followed p s t -> followed p s (replace_cp s' p t).
Proof.
  intros Hsp; induction t as [|c r IH]; intros Hf; [exact I|]. destruct Hf as [Hc Hr].
  unfold replace_cp in *; cbn [flat_map].
  destruct (c =? s')%nat; simpl.
  - split; [intros _; reflexivity|]. split; [intros ->; congruence | exact (IH Hr)].
  - split; [|exact (IH Hr)]. intros Hcs. apply hd_replace_cp. exact (Hc Hcs).
Qed.

Lemma followed_fold_pres (sep : list nat) (s p : nat) (t : list nat) :
  s <> p -> followed p s t -> followed p s (fold_left (fun t s => replace_cp s p t) sep t).
Proof.
  revert t; induction sep as [|s' sep IH]; intros t Hsp Ht; [exact Ht|].
  simpl. apply IH; [exact Hsp|]. apply followed_replace_other; assumption.
Qed.

Lemma followed_fold (sep : list nat) (s p : nat) (t : list nat) :
  In s sep -> s <> p -> followed p s (fold_left (fun t s => replace_cp s p t) sep t).
Proof.
  revert t; induction sep as [|s' sep IH]; intros t Hin Hsp; [destruct Hin|].
  simpl. destruct (Nat.eq_dec s' s) as [<-|Hne].
  - apply followed_fold_pres; [exact Hsp|]. apply followed_replace_self; exact Hsp.
  - destruct Hin as [Hin|Hin]; [contradiction|]. apply IH; assumption.
Qed.

Lemma in_removelast_cons {A} (x c : A) (w : list A) :
  In x (removelast (c :: w)) -> x = c \/ In x (removelast w).
Proof.
  destruct w as [|d w]; simpl; [intros []|]. intros [H|H]; [left; congruence | right; exact H].
Qed.

Lemma in_removelast {A} (x : A) (w : list A) : In x (removelast w) -> In x w.
Proof.
  induction w as [|c w IH]; simpl; [intros []|]. intros H.
  apply in_removelast_cons in H. destruct H as [H|H]; [left; congruence | right; exact (IH H)].
Qed.

Lemma split_cp_no_p (p : nat) (t : list nat) (w : list nat) :
  In w (split_cp p t) -> ~ In p w.
Proof.
  revert w; induction t as [|c r IH]; intros w; simpl.
  - intros [<-|[]]; intros [].
  - destruct (c =? p)%nat eqn:E.
    + intros [<-|Hw]; [intros []| exact (IH w Hw)].
    + destruct (split_cp p r) as [|w0 ws] eqn:Es; [exfalso; exact (split_cp_nonempty p r Es)|].
      intros [<-|Hw].
      * intros [Hc|Hc]; [subst; rewrite Nat.eqb_refl in E; discriminate|].
        exact (IH w0 (or_introl eq_refl) Hc).
      * exact (IH w (or_intror Hw)).
Qed.

Lemma split_cp_followed (p s : nat) (t : list nat) :
  s <> p -> followed p s t -> forall w, In w (split_cp p t) -> ~ In s (removelast w).
Proof.
  intros Hsp; induction t as [|c r IH]; intros Hf w Hw.
  - simpl in Hw. destruct Hw as [<-|[]]; intros [].
  - destruct Hf as [Hc Hr]. simpl in Hw. destruct (c =? p)%nat eqn:E.
    + destruct Hw as [<-|Hw]; [intros []| exact (IH Hr w Hw)].
    + destruct (split_cp p r) as [|w0 ws] eqn:Es; [exfalso; exact (split_cp_nonempty p r Es)|].
      specialize (IH Hr).
      destruct Hw as [<-|Hw]; [|exact (IH w (or_intror Hw))].
      destruct (Nat.eq_dec c s) as [->|Hcs].
      * destruct r as [|x r']; [discriminate (Hc eq_refl)|].
        injection (Hc eq_refl) as ->. simpl in Es. rewrite Nat.eqb_refl in Es.
        injection Es as <- _. intros [].
      * intros Hin. apply in_removelast_cons in Hin. destruct Hin as [->|Hin]; [congruence|].
        exact (IH w0 (or_introl eq_refl) Hin).
Qed.

(** X3: the pieces [split_and_keep] returns concatenate back to the text. *)
Theorem split_and_keep_concat (sep text : list nat) (pieces : list (list nat)) :
  split_and_keep sep text = inr pieces -> concat pieces = text.
Proof.
  unfold split_and_keep. destruct (py_max text) as [m|] eqn:Em; [|discriminate].
  destruct (N.of_nat (S m) <? 1114112)%N; [|discriminate]. intros E; injection E as <-.
  rewrite concat_split_cp, filter_fold_replace. apply filter_all_true.
  intros c Hc. destruct (py_max_spec text m Em) as [Hle _].
  specialize (Hle c Hc). destruct (c =? S m)%nat eqn:Ec; [apply Nat.eqb_eq in Ec; lia|reflexivity].
Qed.

(** X4: a separator character only ever ends a piece: it never occurs in a
    piece before its last character. *)
Theorem split_and_keep_sep_last (sep text : list nat) (pieces : list (list nat)) :
  split_and_keep sep text = inr pieces ->
  forall w s, In w pieces -> In s sep -> ~ In s (removelast w).
Proof.
  unfold split_and_keep. destruct (py_max text) as [m|] eqn:Em; [|discriminate].
  destruct (N.of_nat (S m) <? 1114112)%N; [|discriminate]. intros E; injection E as <-.
  intros w s Hw Hs. destruct (Nat.eq_dec s (S m)) as [->|Hne].
  - intros Hin. apply in_removelast in Hin. exact (split_cp_no_p _ _ _ Hw Hin).
  - apply (split_cp_followed (S m) s _ Hne (followed_fold sep s (S m) text Hs Hne) w Hw).
Qed.

(** X5: [split_and_keep] raises [ValueError] exactly when the text is empty
    or contains U+10FFFF (there is no character after it). *)
Theorem split_and_keep_error (sep text : list nat) :
  (exists e, split_and_keep sep text = inl e) <->
  text = [] \/ exists c, In c text /\ (1114111 <= N.of_nat c)%N.
Proof.
  unfold split_and_keep. destruct (py_max text) as [m|] eqn:Em.
  - destruct (py_max_spec text m Em) as [Hle Hm]. split.
    + destruct (N.of_nat (S m) <? 1114112)%N eqn:Eb; intros [e He]; [discriminate|].
      right. exists m. split; [exact Hm|]. apply N.ltb_ge in Eb. lia.
    + intros [->|(c & Hc & Hb)]; [destruct Hm|]. specialize (Hle c Hc).
      destruct (N.of_nat (S m) <? 1114112)%N eqn:Eb; [apply N.ltb_lt in Eb; lia|].
      eexists; reflexivity.
  - destruct text; [|discriminate]. split; [intros _; left; reflexivity|].
    intros _; eexists; reflexivity.
Qed.


(** ** Collection helpers *)

Lemma remove_at_mid {A} (l1 l2 : list A) (x : A) :
  remove_at (length l1) (l1 ++ x :: l2) = (l1 ++ l2)%list.
Proof.
  induction l1 as [|a l1 IH]; [reflexivity|]. unfold remove_at in *. simpl. f_equal. exact IH.
Qed.

Lemma insert_at_mid {A} (l1 l2 : list A) (x : A) :
  insert_at (length l1) x (l1 ++ l2) = (l1 ++ x :: l2)%list.
Proof.
  induction l1 as [|a l1 IH]; [reflexivity|]. unfold insert_at in *. simpl. f_equal. exact IH.
Qed.

Lemma nth_error_mid {A} (l1 l2 : list A) (x : A) : nth_error (l1 ++ x :: l2) (length l1) = Some x.
Proof. induction l1 as [|a l1 IH]; [reflexivity | exact IH]. Qed.

(** Moving the item at [len(l1)] to any position [d] of the collection. *)
Lemma coll_move_at {A} (l1 l2 : list A) (x : A) (d : nat) :
  (d <= length l1 + length l2)%nat ->
  coll_move (l1 ++ x :: l2) (Z.of_nat (length l1)) (Z.of_nat d) = Some (insert_at d x (l1 ++ l2)).
Proof.
  intros Hd. unfold coll_move. rewrite length_app. cbn [length].
  rewrite (proj2 (Z.leb_le 0 (Z.of_nat (length l1)))) by lia.
  rewrite (proj2 (Z.ltb_lt (Z.of_nat (length l1)) _)) by lia.
  rewrite (proj2 (Z.leb_le 0 (Z.of_nat d))) by lia.
  rewrite (proj2 (Z.ltb_lt (Z.of_nat d) _)) by lia.
  cbn [andb]. rewrite !Nat2Z.id, nth_error_mid, remove_at_mid. reflexivity.
Qed.

(** The two moves of [swap_collection_items], from the higher index to the lower one. *)
Lemma swap_moves {A} (l1 l2 l3 : list A) (x y : A) :
  match coll_move (l1 ++ x :: l2 ++ y :: l3) (Z.of_nat (length l1 + 1 + length l2))
          (Z.of_nat (length l1)) with
  | Some c => coll_move c (Z.of_nat (length l1) + 1) (Z.of_nat (length l1 + 1 + length l2))
  | None => None
  end = Some (l1 ++ y :: l2 ++ x :: l3)%list.
Proof.
  replace (l1 ++ x :: l2 ++ y :: l3)%list with ((l1 ++ x :: l2) ++ y :: l3)%list
    by (rewrite <- app_assoc; reflexivity).
  replace (length l1 + 1 + length l2)%nat with (length (l1 ++ x :: l2))
    by (rewrite length_app; simpl; lia).
  rewrite coll_move_at by (rewrite !length_app; simpl; lia).
  rewrite <- app_assoc, insert_at_mid.
  replace (l1 ++ y :: (x :: l2) ++ l3)%list with ((l1 ++ [y]) ++ x :: l2 ++ l3)%list
    by (rewrite <- app_assoc; reflexivity).
  replace (Z.of_nat (length l1) + 1)%Z with (Z.of_nat (length (l1 ++ [y])))
    by (rewrite length_app; simpl; lia).
  replace (length (l1 ++ x :: l2)) with (length ((l1 ++ [y]) ++ l2))
    by (rewrite !length_app; simpl; lia).
  rewrite coll_move_at by (rewrite !length_app; simpl; lia).
  replace ((l1 ++ [y]) ++ l2 ++ l3)%list with (((l1 ++ [y]) ++ l2) ++ l3)%list
    by (rewrite <- app_assoc; reflexivity).
  rewrite insert_at_mid. rewrite <- !app_assoc. reflexivity.
Qed.

(** X6: [swap_collection_items] exchanges the items at the two indices, in
    either argument order; an index past the end counts as the last one. *)
Theorem swap_collection_items_swaps {A} (l1 l2 l3 : list A) (x y : A) (j : Z) :
  (j = Z.of_nat (length l1 + 1 + length l2) \/
   (l3 = [] /\ (Z.of_nat (length l1 + 1 + length l2) <= j)%Z)) ->
  swap_collection_items (l1 ++ x :: l2 ++ y :: l3) (Z.of_nat (length l1)) j =
    Some (l1 ++ y :: l2 ++ x :: l3)%list /\
  swap_collection_items (l1 ++ x :: l2 ++ y :: l3) j (Z.of_nat (length l1)) =
    Some (l1 ++ y :: l2 ++ x :: l3)%list.
Proof.
  intros Hj. unfold swap_collection_items. cbv zeta.
  assert (Hn : length (l1 ++ x :: l2 ++ y :: l3) = (length l1 + 1 + length l2 + 1 + length l3)%nat)
    by (rewrite length_app; simpl; rewrite length_app; simpl; lia).
  rewrite Hn.
  assert (Ej : (if (Z.of_nat (length l1 + 1 + length l2 + 1 + length l3) <=? j)%Z
                then (Z.of_nat (length l1 + 1 + length l2 + 1 + length l3) - 1)%Z else j) =
               Z.of_nat (length l1 + 1 + length l2)).
  { destruct (Z.of_nat (length l1 + 1 + length l2 + 1 + length l3) <=? j)%Z eqn:E;
      [apply Z.leb_le in E | apply Z.leb_gt in E];
      destruct Hj as [->|[-> Hj]]; simpl in *; lia. }
  rewrite Ej.
  rewrite (proj2 (Z.leb_gt (Z.of_nat (length l1 + 1 + length l2 + 1 + length l3))
                           (Z.of_nat (length l1)))) by lia.
  rewrite (proj2 (Z.eqb_neq (Z.of_nat (length l1)) (Z.of_nat (length l1 + 1 + length l2)))) by lia.
  rewrite (proj2 (Z.eqb_neq (Z.of_nat (length l1 + 1 + length l2)) (Z.of_nat (length l1)))) by lia.
  rewrite (proj2 (Z.ltb_lt (Z.of_nat (length l1)) (Z.of_nat (length l1 + 1 + length l2)))) by lia.
  rewrite (proj2 (Z.ltb_ge (Z.of_nat (length l1 + 1 + length l2)) (Z.of_nat (length l1)))) by lia.
  split; apply swap_moves.
Qed.

(** X7: [insert_to_collection] puts the new item at [index], or at the end
    when [index] is past it. *)
Theorem insert_to_collection_at {A} (collection : list A) (index : Z) (item : A) :
  (0 <= index)%Z ->
  insert_to_collection collection index item =
    Some (firstn (Z.to_nat index) collection ++ item :: skipn (Z.to_nat index) collection)%list.
Proof.
  intros Hi. unfold insert_to_collection. cbv zeta.
  rewrite length_app. cbn [length].
  destruct (index <? Z.of_nat (length collection + 1))%Z eqn:E.
  - apply Z.ltb_lt in E.
    replace (Z.of_nat (length collection + 1) - 1)%Z with (Z.of_nat (length collection)) by lia.
    replace index with (Z.of_nat (Z.to_nat index)) by lia.
    rewrite coll_move_at by (simpl; lia).
    rewrite app_nil_r, Nat2Z.id. reflexivity.
  - apply Z.ltb_ge in E.
    rewrite firstn_all2, skipn_all2 by lia. reflexivity.
Qed.


(** ** [extract_properties] and [update_command] *)

Lemma sapp_assoc (a b c : string) : ((a ++ b) ++ c)%string = (a ++ b ++ c)%string.
Proof. induction a as [|x a IH]; simpl; [reflexivity | rewrite IH; reflexivity]. Qed.

Lemma sapp_nil_r (a : string) : (a ++ "")%string = a.
Proof. induction a as [|x a IH]; simpl; [reflexivity | rewrite IH; reflexivity]. Qed.

Lemma list_ascii_app (a b : string) :
  list_ascii_of_string (a ++ b) = (list_ascii_of_string a ++ list_ascii_of_string b)%list.
Proof. induction a as [|x a IH]; simpl; [reflexivity | rewrite IH; reflexivity]. Qed.

Lemma rev_str_app (a b : string) : rev_str (a ++ b) = (rev_str b ++ rev_str a)%string.
Proof.
  induction a as [|x a IH]; simpl; [rewrite sapp_nil_r; reflexivity|].
  rewrite IH, sapp_assoc. reflexivity.
Qed.

Lemma rev_str_involutive (a : string) : rev_str (rev_str a) = a.
Proof. induction a as [|x a IH]; simpl; [reflexivity|]. rewrite rev_str_app, IH. reflexivity. Qed.

Lemma split_on_nonempty (c : ascii) (s : string) : split_on c s <> [].
Proof.
  destruct s as [|x r]; simpl; [discriminate|].
  destruct (Ascii.eqb x c); [discriminate|]. destruct (split_on c r); discriminate.
Qed.

Lemma split_on_app (c : ascii) (a b : string) :
  ~ In c (list_ascii_of_string a) -> split_on c (a ++ String c b) = a :: split_on c b.
Proof.
  induction a as [|x a IH]; intros H; simpl.
  - rewrite Ascii.eqb_refl. reflexivity.
  - simpl in IH. rewrite IH by (intros Hc; apply H; right; exact Hc).
    destruct (Ascii.eqb x c) eqn:E; [apply Ascii.eqb_eq in E; subst; destruct H; left; reflexivity|].
    reflexivity.
Qed.

Lemma split_on_none (c : ascii) (a : string) :
  ~ In c (list_ascii_of_string a) -> split_on c a = [a].
Proof.
  induction a as [|x a IH]; intros H; simpl; [reflexivity|].
  rewrite IH by (intros Hc; apply H; right; exact Hc).
  destruct (Ascii.eqb x c) eqn:E; [apply Ascii.eqb_eq in E; subst; destruct H; left; reflexivity|].
  reflexivity.
Qed.

Lemma join_cons (sep w : string) (ws : list string) :
  ws <> [] -> join sep (w :: ws) = (w ++ sep ++ join sep ws)%string.
Proof. destruct ws; [congruence | reflexivity]. Qed.

(** [c.join(s.split(c)) == s] *)
Lemma join_split_on (c : ascii) (s : string) : join (String c EmptyString) (split_on c s) = s.
Proof.
  induction s as [|x r IH]; [reflexivity|]. simpl.
  destruct (Ascii.eqb x c) eqn:E.
  - apply Ascii.eqb_eq in E; subst.
    rewrite join_cons by apply split_on_nonempty. simpl. rewrite IH. reflexivity.
  - destruct (split_on c r) as [|w ws] eqn:Es; [exfalso; exact (split_on_nonempty c r Es)|].
    destruct ws as [|w' ws]; simpl in *; rewrite <- IH; reflexivity.
Qed.

Lemma lstrip_length (s : string) : (String.length (lstrip s) <= String.length s)%nat.
Proof. induction s as [|x r IH]; simpl; [lia|]. destruct (is_space x); simpl; lia. Qed.

Lemma lstrip_app_keep (a b : string) :
  lstrip a = a -> lstrip b = b -> lstrip (a ++ b) = (a ++ b)%string.
Proof.
  destruct a as [|x r]; simpl; [intros _ Hb; exact Hb|]. intros Ha _.
  destruct (is_space x); [|reflexivity].
  exfalso. pose proof (lstrip_length r) as Hl. rewrite Ha in Hl. simpl in Hl. lia.
Qed.

Lemma alnum_not_space (c : ascii) : is_alnum_ c = true -> is_space c = false.
Proof.
  destruct c as [b0 b1 b2 b3 b4 b5 b6 b7];
    destruct b0, b1, b2, b3, b4, b5, b6, b7; vm_compute; intros H;
    first [reflexivity | discriminate H].
Qed.

Lemma isidentifier_chars (s : string) :
  isidentifier s = true ->
  exists x r, s = String x r /\ forall d, In d (list_ascii_of_string s) -> is_alnum_ d = true.
Proof.
  destruct s as [|x r]; simpl; [discriminate|]. intros H. apply andb_prop in H. destruct H as [Hx Hr].
  exists x, r. split; [reflexivity|]. intros d [<-|Hd].
  - unfold is_alnum_. rewrite Hx. reflexivity.
  - clear Hx. induction r as [|y r IH]; simpl in *; [destruct Hd|].
    apply andb_prop in Hr. destruct Hr as [Hy Hr]. destruct Hd as [<-|Hd]; [exact Hy|].
    exact (IH Hr Hd).
Qed.

Lemma lstrip_rev_nospace (s : string) :
  (forall d, In d (list_ascii_of_string s) -> is_space d = false) ->
  lstrip (rev_str s) = rev_str s.
Proof.
  induction s as [|x r IH]; intros H; [reflexivity|]. simpl.
  apply lstrip_app_keep.
  - apply IH. intros d Hd; apply H; right; exact Hd.
  - simpl. rewrite (H x (or_introl eq_refl)). reflexivity.
Qed.

(** A property [k=v] with an identifier [k] and a value [v] that does not
    end in whitespace. *)
Lemma strip_property (k v : string) :
  isidentifier k = true -> lstrip (rev_str v) = rev_str v ->
  strip (k ++ "=" ++ v) = (k ++ "=" ++ v)%string /\
  strip (String " " (k ++ "=" ++ v)) = (k ++ "=" ++ v)%string /\
  strip (String " " k) = k /\ strip k = k.
Proof.
  intros Hk Hv. destruct (isidentifier_chars k Hk) as (x & r & -> & Hal).
  assert (Hx : is_space x = false) by (apply alnum_not_space, Hal; left; reflexivity).
  assert (Hns : forall d, In d (list_ascii_of_string (String x r)) -> is_space d = false)
    by (intros d Hd; apply alnum_not_space, Hal; exact Hd).
  assert (Hkv : strip (String x r ++ "=" ++ v) = (String x r ++ "=" ++ v)%string).
  { unfold strip.
    assert (H1 : lstrip (String x r ++ "=" ++ v) = (String x r ++ "=" ++ v)%string)
      by (simpl; rewrite Hx; reflexivity).
    rewrite H1, rev_str_app, rev_str_app. rewrite lstrip_app_keep.
    - rewrite rev_str_app, rev_str_involutive, rev_str_app, !rev_str_involutive. reflexivity.
    - apply lstrip_app_keep; [exact Hv | reflexivity].
    - apply lstrip_rev_nospace; exact Hns. }
  assert (Hk' : strip (String x r) = String x r).
  { unfold strip. change (lstrip (String x r)) with (if is_space x then lstrip r else String x r).
    rewrite Hx, lstrip_rev_nospace by exact Hns. apply rev_str_involutive. }
  split; [exact Hkv|]. split; [|split; [|exact Hk']].
  - unfold strip in *. cbn [lstrip]. simpl is_space. cbv iota. exact Hkv.
  - unfold strip in *. cbn [lstrip]. simpl is_space. cbv iota. exact Hk'.
Qed.


Lemma alnum_not_eq_comma (d : ascii) : is_alnum_ d = true -> d <> "="%char /\ d <> ","%char.
Proof. intros H; split; intros ->; discriminate H. Qed.

Lemma split_on_space (c : ascii) (s : string) :
  c <> " "%char ->
  split_on c (String " " s) =
  match split_on c s with w :: ws => String " " w :: ws | [] => [String " " EmptyString] end.
Proof.
  intros Hc. cbn [split_on].
  destruct (Ascii.eqb " " c) eqn:E; [apply Ascii.eqb_eq in E; congruence | reflexivity].
Qed.

Lemma split_on_join_comma (q : string) (qs : list string) :
  Forall (fun p => ~ In ","%char (list_ascii_of_string p)) (q :: qs) ->
  split_on "," (join ", " (q :: qs)) = q :: map (String " ") qs.
Proof.
  revert q; induction qs as [|q' qs IH]; intros q H; inversion H as [|? ? Hq Hqs]; subst.
  - apply split_on_none; exact Hq.
  - rewrite join_cons by discriminate.
    change (", " ++ ?x)%string with (String "," (String " " x)).
    rewrite split_on_app by exact Hq. rewrite split_on_space by discriminate.
    rewrite IH by exact Hqs. reflexivity.
Qed.

Lemma length_split_on_pos (c : ascii) (s : string) : (1 <= length (split_on c s))%nat.
Proof.
  destruct (split_on c s) eqn:E; [exfalso; exact (split_on_nonempty c s E) | simpl; lia].
Qed.

(** The loop of [extract_properties] over pieces that each start a new property. *)
Lemma extract_loop_all (ps acc : list string) (s : string) :
  Forall (fun p => isidentifier (strip (hd "" (split_on "=" p))) = true /\
                   (1 < length (split_on "=" p))%nat) ps ->
  (fst (extract_loop ps acc s) ++ [strip (snd (extract_loop ps acc s))])%list =
  (acc ++ map strip (s :: ps))%list.
Proof.
  revert acc s; induction ps as [|p ps IH]; intros acc s H; [reflexivity|].
  inversion H as [|? ? [Hid Hlen] Hps]; subst. cbn [extract_loop].
  rewrite Hid. apply Nat.ltb_lt in Hlen. rewrite Hlen. cbn [andb].
  rewrite IH by exact Hps. simpl (EmptyString ++ _)%string. rewrite join_split_on.
  rewrite <- app_assoc. reflexivity.
Qed.

Lemma good_property_facts (kv : string * string) :
  good_property kv ->
  ~ In ","%char (list_ascii_of_string (fst kv ++ "=" ++ snd kv)) /\
  split_on "=" (fst kv ++ "=" ++ snd kv) = fst kv :: split_on "=" (snd kv) /\
  split_on "=" (String " " (fst kv ++ "=" ++ snd kv)) =
    String " " (fst kv) :: split_on "=" (snd kv).
Proof.
  destruct kv as [k v]; intros (Hk & Hv & _); cbn [fst snd].
  destruct (isidentifier_chars k Hk) as (x & r & Ek & Hal).
  assert (Hsplit : split_on "=" (k ++ "=" ++ v) = k :: split_on "=" v).
  { apply split_on_app. intros Hin. apply (proj1 (alnum_not_eq_comma _ (Hal _ Hin))). reflexivity. }
  split; [|split; [exact Hsplit|]].
  - rewrite list_ascii_app. intros Hin. apply in_app_or in Hin. destruct Hin as [Hin|[Hin|Hin]].
    + apply (proj2 (alnum_not_eq_comma _ (Hal _ Hin))). reflexivity.
    + discriminate Hin.
    + exact (Hv Hin).
  - rewrite split_on_space by discriminate. rewrite Hsplit. reflexivity.
Qed.

(** X8: [extract_properties] reads back a list of [k=v] properties joined
    with [", "], when every key is an identifier and no value contains a
    comma or ends in whitespace. *)
Theorem extract_properties_join (kvs : list (string * string)) :
  Forall good_property kvs ->
  extract_properties (join ", " (map (fun kv => fst kv ++ "=" ++ snd kv) kvs)) =
  map (fun kv => fst kv ++ "=" ++ snd kv)%string kvs.
Proof.
  intros H. destruct kvs as [|kv kvs]; [reflexivity|].
  assert (Hall : forall kv', In kv' (kv :: kvs) -> good_property kv')
    by (intros kv' Hin; exact (proj1 (Forall_forall _ _) H kv' Hin)).
  unfold extract_properties. rewrite map_cons, split_on_join_comma.
  2: { constructor; [apply (good_property_facts kv), Hall; left; reflexivity|].
       apply Forall_map, Forall_forall. intros kv' Hin.
       apply (good_property_facts kv'), Hall; right; exact Hin. }
  destruct (extract_loop _ [] "") as [np ps] eqn:E.
  pose proof (extract_loop_all ((fst kv ++ "=" ++ snd kv)%string
                 :: map (String " ") (map (fun kv => fst kv ++ "=" ++ snd kv)%string kvs)) [] "")
    as Hl.
  rewrite E in Hl. simpl fst in Hl; simpl snd in Hl. rewrite Hl.
  - simpl tl. cbn [map]. destruct (Hall kv (or_introl eq_refl)) as (Hk & _ & Hv). f_equal.
    { exact (proj1 (strip_property _ _ Hk Hv)). }
    rewrite !map_map. apply map_ext_in. intros kv' Hin.
    destruct (Hall kv' (or_intror Hin)) as (Hk' & _ & Hv').
    exact (proj1 (proj2 (strip_property _ _ Hk' Hv'))).
  - constructor.
    + destruct (Hall kv (or_introl eq_refl)) as (Hk & _ & Hv).
      rewrite (proj1 (proj2 (good_property_facts kv (Hall kv (or_introl eq_refl))))).
      simpl hd. rewrite (proj2 (proj2 (proj2 (strip_property _ _ Hk Hv)))).
      split; [exact Hk|]. cbn [length]. pose proof (length_split_on_pos "=" (snd kv)). lia.
    + apply Forall_map, Forall_map, Forall_forall. intros kv' Hin.
      destruct (Hall kv' (or_intror Hin)) as (Hk & _ & Hv).
      rewrite (proj2 (proj2 (good_property_facts kv' (Hall kv' (or_intror Hin))))).
      simpl hd. rewrite (proj1 (proj2 (proj2 (strip_property _ _ Hk Hv)))).
      split; [exact Hk|]. cbn [length]. pose proof (length_split_on_pos "=" (snd kv')). lia.
Qed.


Lemma find_value_some (prop : string) (values : list (list string)) (v : list string) :
  find_value prop values = Some v -> hd "" v = prop /\ In v values.
Proof.
  induction values as [|w ws IH]; simpl; [discriminate|].
  destruct (String.eqb (hd "" w) prop) eqn:E.
  - intros H; injection H as <-. apply String.eqb_eq in E. split; [exact E | left; reflexivity].
  - intros H. destruct (IH H) as [H1 H2]. split; [exact H1 | right; exact H2].
Qed.

Lemma remove_first_in (v : list string) (values : list (list string)) :
  In v values -> exists values', remove_first v values = Some values'.
Proof.
  induction values as [|w ws IH]; simpl; [intros []|]. intros Hin.
  destruct (list_eq_dec string_dec w v) as [_|Hne]; [eexists; reflexivity|].
  destruct Hin as [->|Hin]; [contradiction|]. destruct (IH Hin) as [ws' ->]. eexists; reflexivity.
Qed.

Lemma remove_first_incl (v : list string) (values values' : list (list string)) :
  remove_first v values = Some values' -> incl values' values.
Proof.
  revert values'; induction values as [|w ws IH]; intros values'; simpl; [discriminate|].
  destruct (list_eq_dec string_dec w v).
  - intros H; injection H as <-. intros x Hx; right; exact Hx.
  - destruct (remove_first v ws) as [ws'|] eqn:E; [|discriminate]. intros H; injection H as <-.
    intros x [<-|Hx]; [left; reflexivity | right; exact (IH ws' eq_refl x Hx)].
Qed.

(** Removing the value found for [prop] leaves the values of the other keys. *)
Lemma find_value_remove (prop prop' : string) (values values' : list (list string))
    (v : list string) :
  find_value prop values = Some v -> remove_first v values = Some values' -> prop' <> prop ->
  find_value prop' values' = find_value prop' values.
Proof.
  revert values'; induction values as [|w ws IH]; intros values' Hf Hr Hne; simpl in *;
    [discriminate|].
  destruct (String.eqb (hd "" w) prop) eqn:E.
  - injection Hf as <-. apply String.eqb_eq in E.
    destruct (list_eq_dec string_dec w w) as [_|]; [|contradiction]. injection Hr as <-.
    destruct (String.eqb (hd "" w) prop') eqn:E'; [apply String.eqb_eq in E'; congruence|].
    reflexivity.
  - destruct (list_eq_dec string_dec w v) as [->|Hwv].
    + destruct (find_value_some _ _ _ Hf) as [Hh _]. rewrite Hh, String.eqb_refl in E.
      discriminate.
    + destruct (remove_first v ws) as [ws'|] eqn:Er; [|discriminate]. injection Hr as <-.
      simpl. destruct (String.eqb (hd "" w) prop'); [reflexivity|].
      exact (IH ws' Hf eq_refl Hne).
Qed.

Lemma flat_map_ext_in {A B} (f g : A -> list B) (l : list A) :
  (forall a, In a l -> f a = g a) -> flat_map f l = flat_map g l.
Proof.
  intros H. rewrite !flat_map_concat_map. f_equal. apply map_ext_in. exact H.
Qed.

(** The loop of [update_command] keeps, in the order of [props], the first
    value given for each property. *)
Lemma update_loop_spec (props : list string) (values : list (list string)) (inputs : list string) :
  NoDup props -> Forall (fun v => 2 <= length v)%nat values ->
  update_loop props values inputs =
  inr (inputs ++ flat_map (fun prop => match find_value prop values with
                                       | Some v => [(hd "" v ++ "=" ++ nth 1 v "")%string]
                                       | None => []
                                       end) props)%list.
Proof.
  revert values inputs; induction props as [|prop ps IH]; intros values inputs Hnd Hlen.
  - simpl. rewrite app_nil_r. reflexivity.
  - apply NoDup_cons_iff in Hnd. destruct Hnd as [Hprop Hnd]. cbn [update_loop flat_map].
    destruct (find_value prop values) as [v|] eqn:Ef.
    + destruct (find_value_some _ _ _ Ef) as [_ Hin].
      rewrite (nth_error_nth' v "" (proj1 (Forall_forall _ _) Hlen v Hin)).
      destruct (remove_first_in v values Hin) as [values' Er]. rewrite Er.
      rewrite IH; [| exact Hnd | exact (incl_Forall (remove_first_incl _ _ _ Er) Hlen)].
      rewrite <- app_assoc. do 3 f_equal.
      apply flat_map_ext_in. intros p Hp.
      rewrite (find_value_remove prop p values values' v Ef Er); [reflexivity|].
      intros ->; contradiction.
    + exact (IH values inputs Hnd Hlen).
Qed.

Lemma prefix_app (a b : string) : String.prefix a (a ++ b) = true.
Proof.
  induction a as [|x a IH]; [destruct b; reflexivity|]. simpl.
  destruct (ascii_dec x x) as [_|]; [exact IH | contradiction].
Qed.

Lemma split_first_app (c : ascii) (a b : string) :
  ~ In c (list_ascii_of_string a) -> split_first c (a ++ String c b) = Some (a, b).
Proof.
  induction a as [|x a IH]; intros H; simpl.
  - rewrite Ascii.eqb_refl. reflexivity.
  - destruct (Ascii.eqb x c) eqn:E; [apply Ascii.eqb_eq in E; subst; destruct H; left; reflexivity|].
    simpl in IH. rewrite IH by (intros Hc; apply H; right; exact Hc). reflexivity.
Qed.

Lemma slength_app (a b : string) :
  String.length (a ++ b) = (String.length a + String.length b)%nat.
Proof. induction a as [|x a IH]; simpl; [reflexivity | rewrite IH; reflexivity]. Qed.

Lemma drop_last_char_app (s : string) (x : ascii) : drop_last_char (s ++ String x EmptyString) = s.
Proof.
  unfold drop_last_char. rewrite slength_app. simpl. rewrite Nat.add_sub.
  induction s as [|y s IH]; [reflexivity|]. simpl. rewrite IH. reflexivity.
Qed.

Lemma find_value_pairs (prop : string) (kvs : list (string * string)) :
  find_value prop (map (fun kv => [fst kv; snd kv]) kvs) =
  option_map (fun kv => [fst kv; snd kv]) (find (fun kv => String.eqb (fst kv) prop) kvs).
Proof.
  induction kvs as [|kv kvs IH]; [reflexivity|]. simpl. destruct (String.eqb (fst kv) prop);
    [reflexivity | exact IH].
Qed.

(** X9: [update_command] rebuilds a [bpy.ops] call with only the arguments
    whose key is still a property of the operator, in the operator's
    property order (its first property skipped), each with the first value
    given for it. *)
Theorem update_command_filters (rna_properties : string -> PyExc + list string) (op : string)
    (kvs : list (string * string)) (props : list string) :
  ~ In "("%char (list_ascii_of_string op) ->
  rna_properties ("bpy.ops." ++ op) = inr props ->
  NoDup (tl props) ->
  Forall (fun kv => good_property kv /\ ~ In "="%char (list_ascii_of_string (snd kv))) kvs ->
  update_command rna_properties
    ("bpy.ops." ++ op ++ "(" ++ join ", " (map (fun kv => fst kv ++ "=" ++ snd kv) kvs) ++ ")") =
  inr (Some ("bpy.ops." ++ op ++ "(" ++
             join ", " (flat_map (fun prop =>
                                    match find (fun kv => String.eqb (fst kv) prop) kvs with
                                    | Some kv => [fst kv ++ "=" ++ snd kv]
                                    | None => []
                                    end) (tl props)) ++ ")")).
Proof.
  intros Hop Hrna Hnd Hkvs. unfold update_command.
  rewrite prefix_app.
  rewrite <- sapp_assoc. change ("(" ++ ?x)%string with (String "(" x).
  rewrite split_first_app.
  2: { rewrite list_ascii_app. intros Hin. apply in_app_or in Hin.
       destruct Hin as [Hin|Hin]; [simpl in Hin; intuition discriminate | exact (Hop Hin)]. }
  rewrite drop_last_char_app, extract_properties_join.
  2: { eapply Forall_impl; [|exact Hkvs]. intros kv [H _]; exact H. }
  rewrite Hrna, map_map.
  replace (map (fun kv => split_on "=" (fst kv ++ "=" ++ snd kv)) kvs)
    with (map (fun kv => [fst kv; snd kv]) kvs).
  2: { apply map_ext_in. intros kv Hin.
       destruct (proj1 (Forall_forall _ _) Hkvs kv Hin) as [Hg Hnoeq].
       rewrite (proj1 (proj2 (good_property_facts kv Hg))), split_on_none by exact Hnoeq.
       reflexivity. }
  rewrite update_loop_spec; [| exact Hnd |].
  2: { apply Forall_map, Forall_forall. intros kv _. simpl. lia. }
  simpl app. rewrite sapp_assoc.
  erewrite (flat_map_ext_in _ _ (tl props)); [reflexivity|]. intros prop _. rewrite find_value_pairs.
  destruct (find _ kvs) as [kv|]; reflexivity.
Qed.


(** ** [get_categorized_view_3d_modes] *)

Lemma fold_categorize (l : list EnumEntry) (g gp cv : list EnumEntry) :
  fold_left categorize l (g, gp, cv) =
  ((g ++ filter (fun m => negb (contains "GPENCIL" (entry_id m)) &&
                          negb (contains "CURVES" (entry_id m))) l)%list,
   (gp ++ filter (fun m => contains "GPENCIL" (entry_id m)) l)%list,
   (cv ++ filter (fun m => negb (contains "GPENCIL" (entry_id m)) &&
                           contains "CURVES" (entry_id m)) l)%list).
Proof.
  revert g gp cv; induction l as [|m l IH]; intros g gp cv; simpl.
  - rewrite !app_nil_r. reflexivity.
  - unfold categorize at 1.
    destruct (contains "GPENCIL" (entry_id m)), (contains "CURVES" (entry_id m)); simpl;
      rewrite IH, <- !app_assoc; reflexivity.
Qed.

(** X10: the modes come out as three headed groups (General, Grease Pencil,
    Curves), each keeping the order of the items, every value shifted by
    [value_offset]. *)
Theorem get_categorized_view_3d_modes_groups (items : list EnumItem) (value_offset : Z) :
  get_categorized_view_3d_modes items value_offset =
  (Heading "General"
     :: filter (fun m => negb (contains "GPENCIL" (entry_id m)) &&
                         negb (contains "CURVES" (entry_id m)))
               (enum_items_to_enum_prop_list items value_offset)
   ++ Heading "Grease Pencil"
     :: filter (fun m => contains "GPENCIL" (entry_id m))
               (enum_items_to_enum_prop_list items value_offset)
   ++ Heading "Curves"
     :: filter (fun m => negb (contains "GPENCIL" (entry_id m)) && contains "CURVES" (entry_id m))
               (enum_items_to_enum_prop_list items value_offset))%list.
Proof. unfold get_categorized_view_3d_modes. rewrite fold_categorize. reflexivity. Qed.

(** ** [get_category_id] *)

Lemma find_category_spec (id : string) (cs : list Category) :
  (find_category id cs = -1 /\ ~ In id (map cat_name cs))%Z \/
  (0 <= find_category id cs /\ In id (map cat_name cs))%Z.
Proof.
  induction cs as [|c cs IH]; simpl; [left; split; [reflexivity | intros []]|].
  destruct (String.eqb (cat_name c) id) eqn:E.
  - right. apply String.eqb_eq in E. split; [lia | left; exact E].
  - apply String.eqb_neq in E.
    destruct IH as [[-> Hn]|[Hp Hin]].
    + left. split; [reflexivity|]. intros [H|H]; contradiction.
    + right. rewrite (proj2 (Z.ltb_ge _ _) Hp). split; [lia | right; exact Hin].
Qed.

(** X11: [get_category_id] returns [id] when a category is named [id];
    otherwise the id of the category at [index], or the selected category
    when [index] is out of range. *)
Theorem get_category_id_spec (ActRec_pref : Prefs) (id : string) (index : Z) :
  (In id (map cat_name (categories ActRec_pref)) -> get_category_id ActRec_pref id index = id) /\
  (~ In id (map cat_name (categories ActRec_pref)) -> forall c,
     (0 <= index)%Z -> nth_error (categories ActRec_pref) (Z.to_nat index) = Some c ->
     get_category_id ActRec_pref id index = cat_id c) /\
  (~ In id (map cat_name (categories ActRec_pref)) ->
     (index < 0 \/ Z.of_nat (length (categories ActRec_pref)) <= index)%Z ->
     get_category_id ActRec_pref id index = selected_category ActRec_pref).
Proof.
  unfold get_category_id.
  destruct (find_category_spec id (categories ActRec_pref)) as [[-> Hn]|[Hp Hin]].
  - split; [intros H; contradiction|]. rewrite Z.eqb_refl. split.
    + intros _ c Hi Hc.
      assert (Hlt : (Z.to_nat index < length (categories ActRec_pref))%nat)
        by (apply nth_error_Some; congruence).
      rewrite (proj2 (Z.leb_le 0 index) Hi), (proj2 (Z.ltb_lt index _)) by lia.
      simpl. rewrite Hc. reflexivity.
    + intros _ [Hi|Hi].
      * rewrite (proj2 (Z.leb_gt 0 index) Hi). reflexivity.
      * rewrite (proj2 (Z.ltb_ge index _) Hi), andb_false_r. reflexivity.
  - rewrite (proj2 (Z.eqb_neq _ _)) by lia.
    split; [reflexivity|]. split; intros H; contradiction.
Qed.


(** ** The command block of [play] *)

Lemma join_chars (c : ascii) (sep : string) (l : list string) :
  In c (list_ascii_of_string (join sep l)) ->
  In c (list_ascii_of_string sep) \/ exists w, In w l /\ In c (list_ascii_of_string w).
Proof.
  induction l as [|w l IH]; simpl; [intros []|].
  destruct l as [|w' l].
  - intros H. right. exists w. split; [left; reflexivity | exact H].
  - rewrite !list_ascii_app. intros H. apply in_app_or in H. destruct H as [H|H].
    + right. exists w. split; [left; reflexivity | exact H].
    + apply in_app_or in H. destruct H as [H|H]; [left; exact H|].
      destruct (IH H) as [H'|(w'' & Hw & Hc)]; [left; exact H'|].
      right. exists w''. split; [right; exact Hw | exact Hc].
Qed.


Lemma local_play_args (kvs : list (string * string)) :
  Forall local_play_default kvs ->
  In ("id", dq ++ dq)%string kvs -> In ("index", "-1") kvs ->
  py_index (split_on "(" ("bpy.ops.ar.local_play(" ++
                          join ", " (map (fun kv => fst kv ++ "=" ++ snd kv) kvs) ++ ")")) 1 =
    Some (join ", " (map (fun kv => fst kv ++ "=" ++ snd kv) kvs) ++ ")")%string /\
  default_local_play_props
    (extract_properties (drop_last_char
       (join ", " (map (fun kv => fst kv ++ "=" ++ snd kv) kvs) ++ ")"))) = true.
Proof.
  intros Hall Hid Hix. split.
  - change ("bpy.ops.ar.local_play(" ++ ?x)%string
      with ("bpy.ops.ar.local_play" ++ String "(" x)%string.
    rewrite split_on_app by (simpl; intuition discriminate).
    rewrite split_on_none; [reflexivity|].
    rewrite list_ascii_app. intros H. apply in_app_or in H.
    destruct H as [H|H]; [|simpl in H; intuition discriminate].
    apply join_chars in H. destruct H as [H|(w & Hw & Hc)]; [simpl in H; intuition discriminate|].
    apply in_map_iff in Hw. destruct Hw as (kv & <- & Hkv).
    destruct (proj1 (Forall_forall _ _) Hall kv Hkv) as [->| ->]; simpl in Hc;
      intuition discriminate.
  - rewrite drop_last_char_app, extract_properties_join.
    2: { eapply Forall_impl; [|exact Hall]. intros kv [->| ->]; split; cbv; try reflexivity;
         intuition discriminate. }
    unfold default_local_play_props. apply andb_true_intro; split; [apply andb_true_intro; split|].
    + apply forallb_forall. intros x Hx. apply in_map_iff in Hx. destruct Hx as (kv & <- & Hkv).
      destruct (proj1 (Forall_forall _ _) Hall kv Hkv) as [->| ->]; reflexivity.
    + apply existsb_exists. eexists; split; [apply in_map_iff; exists ("id", dq ++ dq)%string;
        split; [reflexivity | exact Hid] | reflexivity].
    + apply existsb_exists. eexists; split; [apply in_map_iff; exists ("index", "-1");
        split; [reflexivity | exact Hix] | reflexivity].
Qed.

Lemma exec_in_nostuck ec ctx mid c : NoStuck (exec_in ec ctx mid c).
Proof. unfold exec_in, update_world; frame. Qed.
#[local] Hint Resolve exec_in_nostuck : frame.
Lemma execute_individually_nostuck ec ctx mid c : NoStuck (execute_individually ec ctx mid c).
Proof. unfold execute_individually, suppress_reference_error, update_world; frame. Qed.
#[local] Hint Resolve execute_individually_nostuck : frame.

Lemma update_world_area f : Preserves st_area_type (update_world f).
Proof. intro s; reflexivity. Qed.
#[local] Hint Resolve update_world_area : frame.
Lemma select_set_area b o : Preserves st_area_type (select_set b o).
Proof. unfold select_set; frame. Qed.
#[local] Hint Resolve select_set_area : frame.
Lemma exec_in_area ec ctx mid c : Preserves st_area_type (exec_in ec ctx mid c).
Proof. unfold exec_in; frame. intro s; reflexivity. Qed.
#[local] Hint Resolve exec_in_area : frame.

Section CommandBlock.

Variable exec_cmd : Ctx -> World -> string -> World * option PyExc.
Variable action : Action.

Local Abbreviation run_command := (run_command exec_cmd action).
Local Abbreviation exec_in := (exec_in exec_cmd).
Local Abbreviation execute_individually := (execute_individually exec_cmd).

(** X12: [bpy.ops.ar.local_play] called with only its default properties
    ([id=""] and [index=-1], in any order) is refused: the macro is
    alerted, an error string is returned and nothing is executed. *)
Theorem run_command_local_play_refused (m : Macro) (base_area : option Area)
    (kvs : list (string * string)) (s : St) :
  m_command m = ("bpy.ops.ar.local_play(" ++
                 join ", " (map (fun kv => fst kv ++ "=" ++ snd kv) kvs) ++ ")")%string ->
  Forall local_play_default kvs ->
  In ("id", dq ++ dq)%string kvs -> In ("index", "-1") kvs ->
  run_command m base_area s =
    (Ok (Some (ErrStr "Don't run Local Play with default properties, this may cause recursion")),
     set_alert (m_id m) s).
Proof.
  intros Hcmd Hall Hid Hix.
  destruct (local_play_args kvs Hall Hid Hix) as [Hsplit Hdef].
  rewrite <- Hcmd in Hsplit.
  assert (Hpre : String.prefix "bpy.ops.ar.local_play" (m_command m) = true)
    by (rewrite Hcmd; reflexivity).
  unfold run_command, prepare_command, bind, try_except. cbv beta.
  rewrite Hpre, Hsplit. cbv beta iota. unfold ret at 1. rewrite Hdef. reflexivity.
Qed.

Lemma find_window_found (w : World) (t : string) (ws : list Window) (s : St) :
  Forall (fun win => screen_areas win <> []) ws ->
  Exists (fun win => exists a0 r, screen_areas win = a0 :: r /\ ui_of w a0 = t) ws ->
  exists win, find_window w t ws s = (Ok (Some win), s).
Proof.
  induction ws as [|win ws IH]; intros Hne Hex; [inversion Hex|].
  inversion Hne as [|? ? Hwin Hws]; subst. simpl.
  destruct (screen_areas win) as [|a0 r] eqn:Ea; [contradiction|].
  destruct (String.eqb (ui_of w a0) t) eqn:Et; [eexists; reflexivity|].
  apply Exists_cons in Hex. destruct Hex as [(a1 & r1 & Ea1 & Et1)|Hex'].
  - rewrite Ea in Ea1. injection Ea1 as <- _. rewrite Et1, String.eqb_refl in Et. discriminate.
  - exact (IH Hws Hex').
Qed.



(** X13: when the macro's editor type differs from the current area's and a
    window already shows that editor in its first area, the command is
    never executed: the lookup [temp_screen.area[0]] raises
    [AttributeError], the macro is alerted and the error returned. *)
Theorem run_command_window_attribute_error (m : Macro) (base_area : option Area) (a : Area) (s : St) :
  String.prefix "bpy.ops.ar.local_play" (m_command m) = false ->
  w_area (st_world s) = Some a ->
  m_ui_type m <> "" -> ui_of (st_world s) a <> m_ui_type m ->
  Forall (fun win => screen_areas win <> []) (w_windows (st_world s)) ->
  Exists (fun win => exists a0 r, screen_areas win = a0 :: r /\ ui_of (st_world s) a0 = m_ui_type m)
         (w_windows (st_world s)) ->
  run_command m base_area s =
    (Ok (Some (ErrExc (mkExc "AttributeError" "'Screen' object has no attribute 'area'"))),
     set_alert (m_id m) (set_area_type (Some None) s)).
Proof.
  intros Hpre Harea Hui Hdiff Hne Hex.
  destruct (find_window_found (st_world s) (m_ui_type m) (rev (w_windows (st_world s)))
              (set_area_type (Some None) s) (Forall_rev Hne) (Exists_rev Hex)) as [win Hfw].
  assert (Hprep : prepare_command m s =
                  (Raise (mkExc "AttributeError" "'Screen' object has no attribute 'area'"),
                   set_area_type (Some None) s)).
  { unfold prepare_command. rewrite Hpre, bind_ret_l. cbv beta iota zeta.
    unfold gets at 1. unfold bind at 1. cbv beta iota.
    unfold bind at 1, modify at 1. cbv beta iota.
    apply bind_raise. rewrite Harea. cbv beta iota.
    rewrite (proj2 (String.eqb_neq _ _) Hui), (proj2 (String.eqb_neq _ _) Hdiff). cbn [negb andb].
    rewrite (bind_ok _ _ (set_area_type (Some None) s) (Some win) (set_area_type (Some None) s))
      by exact Hfw.
    reflexivity. }
  unfold run_command. cbv zeta. unfold bind at 1. unfold try_except at 1. rewrite Hprep.
  destruct base_area; reflexivity.
Qed.


End CommandBlock.

(** * Runs of the helpers' properties *)

Module ExtraRuns.
Import Fx Fx2 Fx3.

(** Witness of [check_for_duplicates_numbered]: [Cube] next to [Cube] and
    [Cube.001] becomes [Cube.002]. *)
Lemma x2_numbered_witness :
  In "Cube" ["Cube"; "Cube.001"] /\
  (exists k, (k <= length ["Cube"; "Cube.001"])%nat /\
    check_for_duplicates ["Cube"; "Cube.001"] "Cube" 1 =
      Some (base_name_of "Cube" ++ "." ++ fmt03 (1 + Z.of_nat k))%string /\
    forall j, (j < k)%nat -> In (base_name_of "Cube" ++ "." ++ fmt03 (1 + Z.of_nat j))%string
                                ["Cube"; "Cube.001"]) /\
  check_for_duplicates ["Cube"; "Cube.001"] "Cube" 1 = Some "Cube.002".
Proof.
  split; [simpl; auto|]. split; [|vm_compute; reflexivity].
  apply check_for_duplicates_numbered. simpl; auto.
Defined.

(** Witness of [split_and_keep_concat] on ["h i,j"] split at space and comma. *)
Lemma x3_concat_witness :
  split_and_keep [32; 44]%nat [104; 32; 105; 44; 106]%nat = inr [[104; 32]; [105; 44]; [106]]%nat /\
  concat [[104; 32]; [105; 44]; [106]]%nat = [104; 32; 105; 44; 106]%nat.
Proof.
  assert (H : split_and_keep [32; 44]%nat [104; 32; 105; 44; 106]%nat = inr [[104; 32]; [105; 44]; [106]]%nat)
    by (vm_compute; reflexivity).
  split; [exact H | exact (split_and_keep_concat _ _ _ H)].
Defined.

(** Witness of [split_and_keep_sep_last] on the same text. *)
Lemma x4_sep_last_witness :
  split_and_keep [32; 44]%nat [104; 32; 105; 44; 106]%nat = inr [[104; 32]; [105; 44]; [106]]%nat /\
  forall w s, In w [[104; 32]; [105; 44]; [106]]%nat -> In s [32; 44]%nat -> ~ In s (removelast w).
Proof.
  assert (H : split_and_keep [32; 44]%nat [104; 32; 105; 44; 106]%nat = inr [[104; 32]; [105; 44]; [106]]%nat)
    by (vm_compute; reflexivity).
  split; [exact H | exact (split_and_keep_sep_last _ _ _ H)].
Defined.

(** Witness of [swap_collection_items_swaps]: items 1 and 3 of [[1; 2; 3; 4]],
    the second index given past the end. *)
Lemma x6_swap_witness :
  ((9 = Z.of_nat (length [1%nat] + 1 + length [3%nat]))%Z \/
   ([] = @nil nat /\ (Z.of_nat (length [1%nat] + 1 + length [3%nat]) <= 9)%Z)) /\
  swap_collection_items [1; 2; 3; 4]%nat 1 9 = Some [1; 4; 3; 2]%nat /\
  swap_collection_items [1; 2; 3; 4]%nat 9 1 = Some [1; 4; 3; 2]%nat.
Proof.
  assert (H : ((9 = Z.of_nat (length [1%nat] + 1 + length [3%nat]))%Z \/
               ([] = @nil nat /\ (Z.of_nat (length [1%nat] + 1 + length [3%nat]) <= 9)%Z)))
    by (right; split; [reflexivity | simpl; lia]).
  split; [exact H|].
  exact (swap_collection_items_swaps [1%nat] [3%nat] [] 2%nat 4%nat 9 H).
Defined.

(** Witness of [insert_to_collection_at]: [9] inserted at index 1. *)
Lemma x7_insert_witness :
  (0 <= 1)%Z /\ insert_to_collection [1; 2; 3]%nat 1 9%nat = Some [1; 9; 2; 3]%nat.
Proof.
  assert (H : (0 <= 1)%Z) by lia.
  split; [exact H|]. exact (insert_to_collection_at [1; 2; 3]%nat 1 9%nat H).
Defined.

(** The properties [a=1] and [b=x]. *)
Lemma x8_good_properties :
  Forall good_property [("a", "1"); ("b", "x")].
Proof.
  repeat apply Forall_cons; try apply Forall_nil;
    (split; [reflexivity | split; [simpl; intuition discriminate | reflexivity]]).
Defined.

(** Witness of [extract_properties_join] on [a=1, b=x]. *)
Lemma x8_extract_witness :
  Forall good_property [("a", "1"); ("b", "x")] /\
  extract_properties "a=1, b=x" = ["a=1"; "b=x"].
Proof.
  split; [exact x8_good_properties|].
  exact (extract_properties_join [("a", "1"); ("b", "x")] x8_good_properties).
Defined.

(** Witness of [update_command_filters]: [c] is no property of the
    operator, [b] comes before [a] in its property order. *)
Lemma x9_update_witness :
  ~ In "("%char (list_ascii_of_string "x.y") /\
  NoDup ["b"; "a"] /\
  Forall (fun kv => good_property kv /\ ~ In "="%char (list_ascii_of_string (snd kv)))
         [("a", "1"); ("c", "2"); ("b", "3")] /\
  update_command (fun _ => inr ["rna_type"; "b"; "a"]) "bpy.ops.x.y(a=1, c=2, b=3)" =
    inr (Some "bpy.ops.x.y(b=3, a=1)").
Proof.
  assert (H1 : ~ In "("%char (list_ascii_of_string "x.y")) by (simpl; intuition discriminate).
  assert (H2 : NoDup ["b"; "a"]).
  { apply NoDup_cons; [simpl; intuition discriminate|].
    apply NoDup_cons; [simpl; auto | apply NoDup_nil]. }
  assert (H3 : Forall (fun kv => good_property kv /\ ~ In "="%char (list_ascii_of_string (snd kv)))
                      [("a", "1"); ("c", "2"); ("b", "3")]).
  { repeat apply Forall_cons; try apply Forall_nil;
      (split; [split; [reflexivity | split; [simpl; intuition discriminate | reflexivity]]
              | simpl; intuition discriminate]). }
  split; [exact H1|]. split; [exact H2|]. split; [exact H3|].
  exact (update_command_filters (fun _ => inr ["rna_type"; "b"; "a"]) "x.y"
           [("a", "1"); ("c", "2"); ("b", "3")] ["rna_type"; "b"; "a"] H1 eq_refl H2 H3).
Defined.

(** Witness of [run_command_local_play_refused] on
    [bpy.ops.ar.local_play(id="", index=-1)]. *)
Lemma x12_local_play_witness :
  Forall local_play_default [("id", dq ++ dq); ("index", "-1")]%string /\
  run_command exec_all_ok (group_action []) local_play_macro None st0 =
    (Ok (Some (ErrStr "Don't run Local Play with default properties, this may cause recursion")),
     set_alert "lp" st0).
Proof.
  assert (H : Forall local_play_default [("id", dq ++ dq); ("index", "-1")]%string).
  { apply Forall_cons; [left; reflexivity|].
    apply Forall_cons; [right; reflexivity | apply Forall_nil]. }
  split; [exact H|].
  exact (run_command_local_play_refused exec_all_ok (group_action []) local_play_macro None
           [("id", dq ++ dq); ("index", "-1")]%string st0 eq_refl H
           (or_introl eq_refl) (or_intror (or_introl eq_refl))).
Defined.

(** Witness of [run_command_window_attribute_error]: an image-editor macro
    run from the 3D view while a window shows the image editor. *)
Lemma x13_attribute_error_witness :
  ui_of world_image_window area_view <> "IMAGE_EDITOR" /\
  run_command exec_all_ok (group_action []) image_macro None (st_world_of world_image_window) =
    (Ok (Some (ErrExc (mkExc "AttributeError" "'Screen' object has no attribute 'area'"))),
     set_alert "img" (set_area_type (Some None) (st_world_of world_image_window))).
Proof.
  assert (Hd : ui_of world_image_window area_view <> "IMAGE_EDITOR") by (vm_compute; discriminate).
  split; [exact Hd|].
  apply (run_command_window_attribute_error exec_all_ok (group_action []) image_macro None
           area_view (st_world_of world_image_window));
    [reflexivity | reflexivity | discriminate | exact Hd | |].
  - apply Forall_cons; [discriminate|]. apply Forall_cons; [discriminate | apply Forall_nil].
  - apply Exists_cons_tl, Exists_cons_hd. exists area_image, []. split; reflexivity.
Defined.


End ExtraRuns.
